(** * Unleash: the tag store and the admin feature API

    Part 1 embeds [src/lib/db/tag-store.ts]: the [TagStore] class, whose
    methods are Knex queries against the table [tags].  Every method is an
    [async] function; it is embedded as a computation over the state it can
    touch (the rows of the table and the event bus that receives the
    [DB_TIME] metrics) that settles either fulfilled or rejected.

    Part 2 is a model of the admin feature API that
    [src/lib/routes/admin-api/feature.test.js] exercises.

    The properties of both parts follow the definitions. *)

From Stdlib Require Import String Ascii.
From stdpp Require Import base decidable option list strings.

Local Open Scope string_scope.
Local Open Scope list_scope.

(** ** Promises over a state *)

Module Promise.

Inductive Error :=
| NotFoundError (message : string)
| UniqueViolation (columns : list string)
| KnexError (message : string).

Inductive Settled (A : Type) :=
| Fulfilled (a : A)
| Rejected (e : Error).
Arguments Fulfilled {A} a.
Arguments Rejected {A} e.

Section WithState.
Context {W : Type}.

Definition t (A : Type) : Type := W → Settled A * W.

Definition resolve {A} (a : A) : t A := λ w, (Fulfilled a, w).

Definition throw {A} (e : Error) : t A := λ w, (Rejected e, w).

(** [await c] followed by the rest of the function body: a rejection of
    [c] leaves the body unexecuted. *)
Definition await {A B} (c : t A) (k : A → t B) : t B :=
  λ w, match c w with
       | (Fulfilled a, w') => k a w'
       | (Rejected e, w') => (Rejected e, w')
       end.
End WithState.

Arguments t : clear implicits.

End Promise.

Import Promise.

Notation "'const' x ':=' 'await' c ';;' k" := (Promise.await c (λ x, k))
  (at level 100, c at next level, right associativity, only parsing).
Notation "'await' c ';;' k" := (Promise.await c (λ _, k))
  (at level 100, c at next level, right associativity, only parsing).
(** A statement that is not awaited runs in sequence all the same. *)
Notation "c ';;' k" := (Promise.await c (λ _, k))
  (at level 100, right associativity, only parsing).

(** ** The table and the query builder

    Knex and the database lie outside the repository.  The queries that
    the store builds are given the meaning of the SQL they stand for, on a
    table that is the list of its rows, a new row coming last. *)

Module Knex.

Section Table.
Context {Row : Type}.

(** [select(..).from(TABLE).where(p)]: the rows satisfying [p], in the
    order of the table. *)
Fixpoint select_where (p : Row → bool) (rows : list Row) : list Row :=
  match rows with
  | [] => []
  | r :: rows' =>
      if p r then r :: select_where p rows' else select_where p rows'
  end.

(** [first(..).from(TABLE).where(p)]: the first such row, [undefined]
    ([None]) when there is none. *)
Fixpoint first_where (p : Row → bool) (rows : list Row) : option Row :=
  match rows with
  | [] => None
  | r :: rows' => if p r then Some r else first_where p rows'
  end.

(** [SELECT EXISTS (SELECT 1 FROM TABLE WHERE p)]. *)
Fixpoint exists_where (p : Row → bool) (rows : list Row) : bool :=
  match rows with
  | [] => false
  | r :: rows' => if p r then true else exists_where p rows'
  end.

(** [TABLE.where(p).del()]: every row satisfying [p] goes, the others
    stay where they are. *)
Fixpoint del_where (p : Row → bool) (rows : list Row) : list Row :=
  match rows with
  | [] => []
  | r :: rows' =>
      if p r then del_where p rows' else r :: del_where p rows'
  end.

(** The rows are keyed: [same_key r r'] says that [r] and [r'] agree on
    the columns of the unique index. *)
Variable same_key : Row → Row → bool.

(** [TABLE.insert(row)]: a row is appended unless a stored row has the
    same key, in which case the statement fails and nothing is
    written. *)
Definition insert (row : Row) (rows : list Row) : option (list Row) :=
  if exists_where (same_key row) rows then None else Some (rows ++ [row]).

(** [TABLE.insert(rows).returning(..).onConflict(key).ignore()]: the
    rows are taken one after the other; one whose key is already stored
    (before the statement, or by an earlier row of the same statement)
    is skipped.  The result is the new table and the rows that were
    really inserted. *)
Fixpoint insert_ignore (new : list Row) (rows : list Row)
  : list Row * list Row :=
  match new with
  | [] => (rows, [])
  | r :: new' =>
      match insert r rows with
      | None => insert_ignore new' rows
      | Some rows' =>
          let '(rows'', inserted) := insert_ignore new' rows' in
          (rows'', r :: inserted)
      end
  end.
End Table.

End Knex.

(** ** [tag-store.ts] *)

Module TagStore.

Definition COLUMNS : list string := ["type"; "value"].
Definition TABLE : string := "tags".

Record ITag := { type : string; value : string }.

(** [ITagTable] has the shape of [ITag]. *)
Abbreviation ITagTable := ITag (only parsing).

#[global] Instance ITag_eq_dec : EqDecision ITag.
Proof. solve_decision. Defined.

(** Modelled from the spec: the table [tags] has the composite natural
    key (type, value); the migration that declares it is not part of the
    sources.  [bulkImport] names the same two columns as its conflict
    target. *)
Definition same_key (a b : ITagTable) : bool :=
  bool_decide (type a = type b) && bool_decide (value a = value b).

(** The [where] objects of the queries. *)
Definition where_type (ty : string) (row : ITagTable) : bool :=
  bool_decide (type row = ty).

Definition where_type_value (ty v : string) (row : ITagTable) : bool :=
  bool_decide (type row = ty) && bool_decide (value row = v).

(** The arguments that [this.timer] passes to [metricsHelper.wrapTimer]
    with the event [DB_TIME]. *)
Record DbTime := { store : string; action : string }.

(** What the store can read and write: the rows of [TABLE], and the
    event bus that the timers report to. *)
Record World (Bus : Type) := { tags : list ITagTable; eventBus : Bus }.
Arguments tags {Bus} w.
Arguments eventBus {Bus} w.

Section Store.

(** [metrics-helper] is not among the sources: [Bus] is the state of the
    event bus, and [wrapTimer args] what the function that
    [metricsHelper.wrapTimer(eventBus, DB_TIME, args)] returns does to the
    bus when it is called. *)
Context {Bus : Type}.
Variable wrapTimer : DbTime → Bus → Bus.

Definition with_tags (rows : list ITagTable) (w : World Bus) : World Bus :=
  {| tags := rows; eventBus := eventBus w |}.

Definition emit (e : DbTime) (w : World Bus) : World Bus :=
  {| tags := tags w; eventBus := wrapTimer e (eventBus w) |}.

(** [this.timer(action)] starts a timer and returns [stopTimer]. *)
Definition stopTimer (action : string) : Promise.t (World Bus) unit :=
  λ w, (Fulfilled tt, emit {| store := "tag"; action := action |} w).

(** The queries, as promises over the world. *)
Definition db_select (p : ITagTable → bool)
  : Promise.t (World Bus) (list ITagTable) :=
  λ w, (Fulfilled (Knex.select_where p (tags w)), w).

Definition db_first (p : ITagTable → bool)
  : Promise.t (World Bus) (option ITagTable) :=
  λ w, (Fulfilled (Knex.first_where p (tags w)), w).

Definition db_exists (p : ITagTable → bool) : Promise.t (World Bus) bool :=
  λ w, (Fulfilled (Knex.exists_where p (tags w)), w).

Definition db_insert (row : ITagTable) : Promise.t (World Bus) unit :=
  λ w, match Knex.insert same_key row (tags w) with
       | Some rows => (Fulfilled tt, with_tags rows w)
       | None => (Rejected (UniqueViolation COLUMNS), w)
       end.

Definition db_del (p : ITagTable → bool) : Promise.t (World Bus) unit :=
  λ w, (Fulfilled tt, with_tags (Knex.del_where p (tags w)) w).

(** For an empty array of rows Knex builds no SQL, and running the query
    is rejected with [The query is empty]; nothing is written. *)
Definition db_insert_ignore (rows : list ITagTable)
  : Promise.t (World Bus) (list ITagTable) :=
  λ w, match rows with
       | [] => (Rejected (KnexError "The query is empty"), w)
       | _ :: _ =>
           let '(rows', inserted) :=
             Knex.insert_ignore same_key rows (tags w) in
           (Fulfilled inserted, with_tags rows' w)
       end.

Definition rowToTag (row : ITagTable) : ITag :=
  {| type := type row; value := value row |}.

Definition getTagsByType (ty : string) : Promise.t (World Bus) (list ITag) :=
  const rows := await db_select (where_type ty);;
  stopTimer "getTagByType";;
  resolve (map rowToTag rows).

Definition getAll : Promise.t (World Bus) (list ITag) :=
  const rows := await db_select (λ _, true);;
  stopTimer "getAll";;
  resolve (map rowToTag rows).

Definition getTag (ty v : string) : Promise.t (World Bus) ITag :=
  const tag := await db_first (where_type_value ty v);;
  stopTimer "getTag";;
  match tag with
  | None =>
      throw (NotFoundError
               ("No tag with type: [" +:+ ty +:+ "] and value [" +:+ v +:+ "]"))
  | Some tag => resolve tag
  end.

Definition exists_ (tag : ITag) : Promise.t (World Bus) bool :=
  const present := await db_exists (where_type_value (type tag) (value tag));;
  stopTimer "exists";;
  resolve present.

Definition createTag (tag : ITag) : Promise.t (World Bus) unit :=
  await db_insert tag;;
  stopTimer "createTag".

Definition deleteTag (tag : ITag) : Promise.t (World Bus) unit :=
  await db_del (where_type_value (type tag) (value tag));;
  stopTimer "deleteTag".

Definition dropTags : Promise.t (World Bus) unit :=
  await db_del (λ _, true);;
  stopTimer "dropTags".

Definition bulkImport (new : list ITag)
  : Promise.t (World Bus) (list ITag) :=
  db_insert_ignore new.

End Store.

End TagStore.

(** * Part 2: the admin feature API

    The router, the feature toggle service and the stores behind
    [/api/admin/features] are exercised by
    [src/lib/routes/admin-api/feature.test.js] but are not part of the
    sources.  They are modelled here from the specification: its data model
    (section 3), the store contracts (4.2, 4.3), the validation layer (4.4),
    the endpoints and status codes (6) and the error taxonomy (7).  Requests
    are those that reached a handler: JSON bodies, on an available store. *)

Module AdminApi.

Abbreviation ITag := TagStore.ITag.

(** A double quote, for the messages that quote a field name. *)
Definition dquote : string := String "034" EmptyString.

(** Modelled from the spec: a strategy is [{name, parameters}]. *)
Record Strategy := {
  strategy_name : string;
  parameters : list (string * string) }.

(** Modelled from the spec: a variant is [{name, weight}]. *)
Record Variant := { variant_name : string; weight : nat }.

(** Modelled from the spec: the FeatureToggle of the data model.  Its tag
    set is kept apart from the definition ([featureTags] below), since
    tags are attached and detached independently of toggle updates. *)
Record FeatureToggle := {
  name : string;
  enabled : bool;
  strategies : list Strategy;
  variants : list Variant;
  stale : bool;
  project : string }.

#[global] Instance Strategy_eq_dec : EqDecision Strategy.
Proof. solve_decision. Defined.
#[global] Instance Variant_eq_dec : EqDecision Variant.
Proof. solve_decision. Defined.
#[global] Instance FeatureToggle_eq_dec : EqDecision FeatureToggle.
Proof. solve_decision. Defined.

(** Modelled from the spec: the body of a create or update request.  The
    [strategies] field may be absent, [variants] may be absent or null. *)
Record FeatureBody := {
  body_name : string;
  body_enabled : bool;
  body_strategies : option (list Strategy);
  body_variants : option (list Variant);
  body_stale : bool;
  body_project : string }.

(** Modelled from the spec: the event types the claims name, and the tag
    events of section 2. *)
Inductive EventType :=
| feature_created
| feature_updated
| feature_archived
| feature_tagged
| feature_untagged.

(** Modelled from the spec: an Event is [{type, data, tags, timestamp}];
    [data] is the snapshot of the toggle and [tags] a list of tags held by
    the event itself. *)
Record Event := {
  type : EventType;
  data : FeatureToggle;
  tags : list ITag;
  timestamp : nat }.

(** Modelled from the spec: the persisted state.  [features] are the active
    toggles in insertion order, [archive] the archived ones, [featureTags]
    the tags attached to toggle names, [events] the log with the most
    recent event first. *)
Record Stores := {
  features : list FeatureToggle;
  archive : list FeatureToggle;
  featureTags : list (string * ITag);
  events : list Event }.

Definition empty : Stores :=
  {| features := []; archive := []; featureTags := []; events := [] |}.

(** Modelled from the spec: the error taxonomy of section 7, as far as the
    feature endpoints raise it. *)
Inductive Failure :=
| NameNotUrlFriendly
| TagTypeNotUrlFriendly
| NoStrategies
| DuplicateVariantNames
| NameExists (archived : bool)
| NotFound.

(** Modelled from the spec: ValidationError is 400, ConflictError 409,
    NotFoundError 404. *)
Definition status_of (f : Failure) : nat :=
  match f with
  | NameNotUrlFriendly | TagTypeNotUrlFriendly
  | NoStrategies | DuplicateVariantNames => 400
  | NameExists _ => 409
  | NotFound => 404
  end.

(** Modelled from the spec: the messages of the [details] list that the
    specification and the tests fix; the others are left open. *)
Definition message (f : Failure) : option string :=
  match f with
  | NameNotUrlFriendly =>
      Some (dquote +:+ "name" +:+ dquote +:+ " must be URL friendly")
  | TagTypeNotUrlFriendly =>
      Some (dquote +:+ "type" +:+ dquote +:+ " must be URL friendly")
  | NameExists false => Some "A toggle with that name already exists"
  | NameExists true =>
      Some "An archived toggle with that name already exists"
  | NoStrategies | DuplicateVariantNames | NotFound => None
  end.

(** Modelled from the spec: the JSON bodies of the answers: a versioned
    list of toggles, one toggle, a versioned list of tags, the structured
    [{details: [{message}]}] of an error, or nothing. *)
Inductive Payload :=
| Features (version : nat) (toggles : list FeatureToggle)
| Feature (toggle : FeatureToggle)
| Tags (version : nat) (attached : list ITag)
| Details (f : Failure)
| Empty.

(** Modelled from the spec: an answer is a status code and a body. *)
Record Response := { status : nat; body : Payload }.

(** [res.body.details[0].message], as the tests read it. *)
Definition details_message (r : Response) : option string :=
  match body r with
  | Details f => message f
  | _ => None
  end.

Definition fail (f : Failure) : Response :=
  {| status := status_of f; body := Details f |}.

(** The request is refused with status [code] and first message [msg],
    and the stores are left as they were. *)
Definition refused (r : Response * Stores) (code : nat) (msg : string)
    (s : Stores) : Prop :=
  status r.1 = code ∧ details_message r.1 = Some msg ∧ r.2 = s.

(** Modelled from the spec: the filters of [GET /api/admin/features]. *)
Record Query := {
  tag : option ITag;
  namePrefix : option string;
  query_project : option string }.

(** Modelled from the spec: the endpoints of section 6. *)
Inductive Request :=
| GET_features (q : Query)
| POST_features (b : FeatureBody)
| POST_features_validate (n : string)
| PUT_features (n : string) (b : FeatureBody)
| DELETE_features (n : string)
| POST_features_toggle (n : string) (to : option bool)
| POST_features_stale (n : string) (on : bool)
| POST_features_tags (n : string) (t : ITag)
| GET_features_tags (n : string).

(** Modelled from the spec: what can happen to the stores: a request at
    some time, or a tag detached through the store ([untagFeature] of
    section 4.2 has no endpoint in section 6). *)
Inductive Call :=
| http (now : nat) (req : Request)
| untag (now : nat) (n : string) (t : ITag).

(** Modelled from the spec: toggles are looked up by their name, which is
    unique. *)
Definition named (n : string) (f : FeatureToggle) : bool :=
  bool_decide (name f = n).

Definition getFeature (n : string) (l : list FeatureToggle)
  : option FeatureToggle :=
  List.find (named n) l.

Definition hasFeature (n : string) (l : list FeatureToggle) : bool :=
  match getFeature n l with
  | Some _ => true
  | None => false
  end.

(** Modelled from the spec: [getTagsForFeature name], the tags attached to
    [name], in the order they were attached. *)
Fixpoint tagsOf (n : string) (l : list (string * ITag)) : list ITag :=
  match l with
  | [] => []
  | (n', t) :: l' =>
      if bool_decide (n' = n) then t :: tagsOf n l' else tagsOf n l'
  end.

Definition getTagsForFeature (n : string) (s : Stores) : list ITag :=
  tagsOf n (featureTags s).

(** Modelled from the spec: [append event], internal to the stores. *)
Definition append (e : Event) (s : Stores) : Stores :=
  {| features := features s; archive := archive s;
     featureTags := featureTags s; events := e :: events s |}.

(** Modelled from the spec: [getEvents], most recent first. *)
Definition getEvents (s : Stores) : list Event := events s.

(** Modelled from the spec: the event of an action on toggle [f] embeds,
    by value, the tags attached to [f] when the event is built. *)
Definition snapshot (ty : EventType) (f : FeatureToggle) (now : nat)
    (s : Stores) : Event :=
  {| type := ty; data := f; tags := getTagsForFeature (name f) s;
     timestamp := now |}.

Definition with_features (l : list FeatureToggle) (s : Stores) : Stores :=
  {| features := l; archive := archive s;
     featureTags := featureTags s; events := events s |}.

Definition with_featureTags (l : list (string * ITag)) (s : Stores)
  : Stores :=
  {| features := features s; archive := archive s;
     featureTags := l; events := events s |}.

(** Modelled from the spec: variant names are unique within a toggle. *)
Fixpoint distinct (l : list string) : bool :=
  match l with
  | [] => true
  | x :: l' => negb (bool_decide (x ∈ l')) && distinct l'
  end.

(** Modelled from the spec: at least one strategy, and no two variants of
    the same name; an absent or null [variants] is no variant. *)
Definition validateDefinition (b : FeatureBody) : option Failure :=
  match body_strategies b with
  | None | Some [] => Some NoStrategies
  | Some (_ :: _) =>
      if distinct (variant_name <$> default [] (body_variants b))
      then None else Some DuplicateVariantNames
  end.

(** Modelled from the spec: the toggle that a body defines under the
    name [n]. *)
Definition toggleOf (n : string) (b : FeatureBody) : FeatureToggle :=
  {| name := n; enabled := body_enabled b;
     strategies := default [] (body_strategies b);
     variants := default [] (body_variants b);
     stale := body_stale b; project := body_project b |}.

(** Modelled from the spec: an update replaces the definition where it
    stands; an archived toggle leaves the active ones. *)
Definition replace (f : FeatureToggle) (l : list FeatureToggle)
  : list FeatureToggle :=
  (λ g, if named (name f) g then f else g) <$> l.

Definition remove (n : string) (l : list FeatureToggle)
  : list FeatureToggle :=
  filter (λ g, name g ≠ n) l.

(** Modelled from the spec: filtering is by exact tag, exact prefix of the
    name and exact project. *)
Definition matches (q : Query) (s : Stores) (f : FeatureToggle) : bool :=
  match tag q with
  | Some t => bool_decide (t ∈ getTagsForFeature (name f) s)
  | None => true
  end
  && match namePrefix q with
     | Some p => String.prefix p (name f)
     | None => true
     end
  && match query_project q with
     | Some p => bool_decide (project f = p)
     | None => true
     end.

(** Modelled from the spec: the list of active toggles with the optional
    [tag], [namePrefix] and [project] filters, in insertion order. *)
Definition getFeatures (q : Query) (s : Stores) : list FeatureToggle :=
  filter (λ f, matches q s f) (features s).

Section Validation.

(** The URL-friendly pattern for names.  The specification names it
    without fixing it; everything below holds for any pattern. *)
Variable isUrlFriendly : string → bool.

(** Modelled from the spec: name validation, behind
    [POST /api/admin/features/validate] and the first step of a creation:
    the pattern, then the conflict with an active, then with an archived
    toggle. *)
Definition validateName (n : string) (s : Stores) : option Failure :=
  if negb (isUrlFriendly n) then Some NameNotUrlFriendly
  else if hasFeature n (features s) then Some (NameExists false)
  else if hasFeature n (archive s) then Some (NameExists true)
  else None.

(** Modelled from the spec: [createFeature def], which fails if the name
    is URL-unsafe or exists among the active or archived toggles; fails if
    there is no strategy; fails if variant names collide.  The new toggle
    comes last in [features]; a feature-created event is emitted. *)
Definition createFeature (now : nat) (b : FeatureBody) (s : Stores)
  : Failure + FeatureToggle * Stores :=
  match validateName (body_name b) s with
  | Some e => inl e
  | None =>
      match validateDefinition b with
      | Some e => inl e
      | None =>
          let f := toggleOf (body_name b) b in
          inr (f, append (snapshot feature_created f now s)
                    (with_features (features s ++ [f]) s))
      end
  end.

(** Modelled from the spec: [updateFeature name def], with the validation
    of the definition as on creation; the definition is replaced where it
    stands and a feature-updated event with the current tags is emitted. *)
Definition updateFeature (now : nat) (n : string) (b : FeatureBody)
    (s : Stores) : Failure + FeatureToggle * Stores :=
  match getFeature n (features s) with
  | None => inl NotFound
  | Some _ =>
      match validateDefinition b with
      | Some e => inl e
      | None =>
          let f := toggleOf n b in
          inr (f, append (snapshot feature_updated f now s)
                    (with_features (replace f (features s)) s))
      end
  end.

(** Modelled from the spec: [archive name] moves the toggle to the
    archived set and emits a feature-archived event carrying its tags. *)
Definition archiveFeature (now : nat) (n : string) (s : Stores)
  : Failure + FeatureToggle * Stores :=
  match getFeature n (features s) with
  | None => inl NotFound
  | Some f =>
      inr (f, append (snapshot feature_archived f now s)
                {| features := remove n (features s);
                   archive := archive s ++ [f];
                   featureTags := featureTags s;
                   events := events s |})
  end.

(** Modelled from the spec: [toggle name on|off|implicit-flip] flips
    [enabled] and persists. *)
Definition toggle (n : string) (to : option bool) (s : Stores)
  : Failure + FeatureToggle * Stores :=
  match getFeature n (features s) with
  | None => inl NotFound
  | Some f =>
      let f' := {| name := name f;
                   enabled := default (negb (enabled f)) to;
                   strategies := strategies f; variants := variants f;
                   stale := stale f; project := project f |} in
      inr (f', with_features (replace f' (features s)) s)
  end.

(** Modelled from the spec: [stale/on] and [stale/off]. *)
Definition setStale (n : string) (on : bool) (s : Stores)
  : Failure + FeatureToggle * Stores :=
  match getFeature n (features s) with
  | None => inl NotFound
  | Some f =>
      let f' := {| name := name f; enabled := enabled f;
                   strategies := strategies f; variants := variants f;
                   stale := on; project := project f |} in
      inr (f', with_features (replace f' (features s)) s)
  end.

(** Modelled from the spec: a toggle of that name, active or archived. *)
Definition knownFeature (n : string) (s : Stores) : option FeatureToggle :=
  match getFeature n (features s) with
  | Some f => Some f
  | None => getFeature n (archive s)
  end.

(** Modelled from the spec: [tagFeature name tag]; the tag type is
    validated like a name, and a tag is attached at most once. *)
Definition tagFeature (now : nat) (n : string) (t : ITag) (s : Stores)
  : Failure + ITag * Stores :=
  if negb (isUrlFriendly (TagStore.type t)) then inl TagTypeNotUrlFriendly
  else match knownFeature n s with
       | None => inl NotFound
       | Some f =>
           let s' :=
             if bool_decide (t ∈ getTagsForFeature n s) then s
             else with_featureTags (featureTags s ++ [(n, t)]) s in
           inr (t, append (snapshot feature_tagged f now s') s')
       end.

(** Modelled from the spec: [untagFeature name tag]. *)
Definition untagFeature (now : nat) (n : string) (t : ITag) (s : Stores)
  : Failure + ITag * Stores :=
  match knownFeature n s with
  | None => inl NotFound
  | Some f =>
      let s' :=
        with_featureTags (filter (λ nt, nt ≠ (n, t)) (featureTags s)) s in
      inr (t, append (snapshot feature_untagged f now s') s')
  end.

(** Modelled from the spec: a failure is answered with its status and its
    [details] and changes nothing; a success is answered with [code] and
    the payload. *)
Definition respond {A} (code : nat) (payload : A → Payload)
    (r : Failure + A * Stores) (s : Stores) : Response * Stores :=
  match r with
  | inl e => (fail e, s)
  | inr (a, s') => ({| status := code; body := payload a |}, s')
  end.

(** Modelled from the spec: the dispatch of the admin router. *)
Definition handle (now : nat) (req : Request) (s : Stores)
  : Response * Stores :=
  match req with
  | GET_features q =>
      ({| status := 200; body := Features 1 (getFeatures q s) |}, s)
  | POST_features b => respond 201 Feature (createFeature now b s) s
  | POST_features_validate n =>
      match validateName n s with
      | Some e => (fail e, s)
      | None => ({| status := 200; body := Empty |}, s)
      end
  | PUT_features n b => respond 200 Feature (updateFeature now n b s) s
  | DELETE_features n =>
      respond 200 (λ _, Empty) (archiveFeature now n s) s
  | POST_features_toggle n to => respond 200 Feature (toggle n to s) s
  | POST_features_stale n on => respond 200 Feature (setStale n on s) s
  | POST_features_tags n t =>
      respond 201 (λ t, Tags 1 [t]) (tagFeature now n t s) s
  | GET_features_tags n =>
      ({| status := 200; body := Tags 1 (getTagsForFeature n s) |}, s)
  end.

Definition call (c : Call) (s : Stores) : Stores :=
  match c with
  | http now req => (handle now req s).2
  | untag now n t =>
      match untagFeature now n t s with
      | inl _ => s
      | inr (_, s') => s'
      end
  end.

(** Modelled from the spec: requests are handled one after the other;
    the stores after a sequence of calls, the first call first. *)
Fixpoint run (cs : list Call) (s : Stores) : Stores :=
  match cs with
  | [] => s
  | c :: cs' => run cs' (call c s)
  end.

(** Modelled from the spec: the invariants of the data model: names are
    URL-friendly and unique across active and archived toggles, a toggle
    has at least one strategy, and its variant names are unique. *)
Definition valid (f : FeatureToggle) : Prop :=
  isUrlFriendly (name f) = true ∧
  strategies f ≠ [] ∧
  distinct (variant_name <$> variants f) = true.

Definition consistent (s : Stores) : Prop :=
  Forall valid (features s ++ archive s) ∧
  NoDup (name <$> features s ++ archive s).

#[global] Instance valid_dec f : Decision (valid f).
Proof. unfold valid. apply _. Defined.

#[global] Instance consistent_dec s : Decision (consistent s).
Proof. unfold consistent. apply _. Defined.

End Validation.

(** Modelled from the spec: one pattern of URL-safe characters only: the
    unreserved characters of a URL (letters, digits, [-], [.], [_], [~]),
    at least one of them.  It rejects spaces, [$], [&] and any byte that
    is not ASCII. *)
Definition unreserved (c : ascii) : bool :=
  let n := nat_of_ascii c in
  ((65 <=? n) && (n <=? 90) || (97 <=? n) && (n <=? 122)
   || (48 <=? n) && (n <=? 57)
   || (n =? 45) || (n =? 46) || (n =? 95) || (n =? 126))%nat.

Fixpoint all_chars (p : ascii → bool) (s : string) : bool :=
  match s with
  | EmptyString => true
  | String c s' => p c && all_chars p s'
  end.

Definition unreserved_only (s : string) : bool :=
  negb (bool_decide (s = "")) && all_chars unreserved s.

End AdminApi.

(** ** The fixtures of [feature.test.js]

    The bodies and tags that the tests send, and the stores that the tests
    prepare, here prepared through the API with the pattern
    [unreserved_only]. *)

Module Fixtures.
Import AdminApi.

Definition default_strategy : Strategy :=
  {| strategy_name := "default"; parameters := [] |}.

(** [{name, enabled: false, strategies: [{name: 'default'}]}]. *)
Definition definition (n : string) : FeatureBody :=
  {| body_name := n; body_enabled := false;
     body_strategies := Some [default_strategy];
     body_variants := None; body_stale := false;
     body_project := "default" |}.

(** [{name}], as in the test of the missing strategy. *)
Definition missing_strategy (n : string) : FeatureBody :=
  {| body_name := n; body_enabled := false;
     body_strategies := None;
     body_variants := None; body_stale := false;
     body_project := "default" |}.

(** [variants: [{name: 'variant1', weight: 50}, {name: 'variant1',
    weight: 50}]]. *)
Definition same_variants (n : string) : FeatureBody :=
  {| body_name := n; body_enabled := true;
     body_strategies := Some [default_strategy];
     body_variants :=
       Some [ {| variant_name := "variant1"; weight := 50 |};
              {| variant_name := "variant1"; weight := 50 |} ];
     body_stale := false; body_project := "default" |}.

Definition simple_tag : ITag :=
  {| TagStore.type := "simple"; TagStore.value := "tag" |}.

Definition other_tag : ITag :=
  {| TagStore.type := "simple"; TagStore.value := "other" |}.

(** A table [tags] with the one row [simple:tag], on a bus that keeps the
    names of the stopped timers. *)
Definition stopped_timers (e : TagStore.DbTime) (bus : list string)
  : list string :=
  bus ++ [TagStore.action e].

Definition one_tag : TagStore.World (list string) :=
  {| TagStore.tags := [simple_tag]; TagStore.eventBus := [] |}.

Definition by_prefix (p : string) : Query :=
  {| tag := None; namePrefix := Some p; query_project := None |}.

(** An active toggle [ts]. *)
Definition active_ts : Stores :=
  run unreserved_only [http 1 (POST_features (definition "ts"))] empty.

(** An active toggle [ts] and an archived toggle [ts.archived]. *)
Definition active_and_archived : Stores :=
  run unreserved_only
    [http 1 (POST_features (definition "ts"));
     http 2 (POST_features (definition "ts.archived"));
     http 3 (DELETE_features "ts.archived")] empty.

(** An active toggle [a_team.toggle] without tag. *)
Definition untagged : Stores :=
  run unreserved_only
    [http 1 (POST_features (definition "a_team.toggle"))] empty.

(** An active toggle [a_team.toggle] with the tag [simple:tag]. *)
Definition tagged : Stores :=
  run unreserved_only
    [http 1 (POST_features (definition "a_team.toggle"));
     http 2 (POST_features_tags "a_team.toggle" simple_tag)] empty.

End Fixtures.

(** ** Callers of the tag store

    The sources hold no caller of [TagStore].  To speak of what the
    methods do one after the other, a call of a method is a value, and a
    sequence of calls is run on the store, each call being a request of
    its own: a rejected call does not keep the next one from running. *)

Module TagStoreCalls.
Import TagStore.

Inductive Method :=
| call_getTagsByType (ty : string)
| call_getAll
| call_getTag (ty v : string)
| call_exists (tag : ITag)
| call_createTag (tag : ITag)
| call_deleteTag (tag : ITag)
| call_dropTags
| call_bulkImport (new : list ITag).

(** What a method is fulfilled with: [ITag[]], [ITag], [boolean] or
    [void]. *)
Inductive Answer :=
| answer_tags (l : list ITag)
| answer_tag (tag : ITag)
| answer_boolean (b : bool)
| answer_void.

Section Calls.
Context {Bus : Type}.
Variable wrapTimer : DbTime → Bus → Bus.

Definition answering {A} (f : A → Answer) (c : Promise.t (World Bus) A)
  : Promise.t (World Bus) Answer :=
  const a := await c;;
  resolve (f a).

Definition perform (m : Method) : Promise.t (World Bus) Answer :=
  match m with
  | call_getTagsByType ty =>
      answering answer_tags (getTagsByType wrapTimer ty)
  | call_getAll => answering answer_tags (getAll wrapTimer)
  | call_getTag ty v => answering answer_tag (getTag wrapTimer ty v)
  | call_exists tag => answering answer_boolean (exists_ wrapTimer tag)
  | call_createTag tag =>
      answering (λ _, answer_void) (createTag wrapTimer tag)
  | call_deleteTag tag =>
      answering (λ _, answer_void) (deleteTag wrapTimer tag)
  | call_dropTags => answering (λ _, answer_void) (dropTags wrapTimer)
  | call_bulkImport new => answering answer_tags (bulkImport new)
  end.

(** The state after the calls [ms], the first call first. *)
Fixpoint performAll (ms : list Method) (w : World Bus) : World Bus :=
  match ms with
  | [] => w
  | m :: ms' => performAll ms' (perform m w).2
  end.

(** A caller that creates the tags one after the other with [createTag]
    and goes on after a rejection; it answers the tags whose creation was
    fulfilled. *)
Fixpoint createEach (new : list ITag) (w : World Bus)
  : list ITag * World Bus :=
  match new with
  | [] => ([], w)
  | tag :: new' =>
      match createTag wrapTimer tag w with
      | (Fulfilled _, w') =>
          let '(created, w'') := createEach new' w' in
          (tag :: created, w'')
      | (Rejected _, w') => createEach new' w'
      end
  end.

End Calls.

(** Tables for the examples: the timers are kept by name on the bus. *)
Definition timer_names (e : DbTime) (bus : list string) : list string :=
  bus ++ [action e].

Definition red : ITag := {| type := "simple"; value := "TeamRed" |}.
Definition green : ITag := {| type := "simple"; value := "TeamGreen" |}.
Definition urgent : ITag := {| type := "priority"; value := "urgent" |}.

Definition no_tags : World (list string) :=
  {| tags := []; eventBus := [] |}.

Definition two_tags : World (list string) :=
  {| tags := [red; urgent]; eventBus := [] |}.

(** The tags of [l], each once, where it first occurs: a tag is kept and
    its later occurrences are taken out. *)
Fixpoint first_occurrences (l : list ITag) : list ITag :=
  match l with
  | [] => []
  | tag :: l' => tag :: filter (λ row, row ≠ tag) (first_occurrences l')
  end.

End TagStoreCalls.

(** * Properties of the tag store *)

(** ** The query builder *)

Module KnexFacts.
Import Knex.

Section Table.
Context {Row : Type}.
Implicit Types (p : Row → bool) (rows new : list Row) (r : Row).

Lemma exists_where_spec p rows :
  exists_where p rows = true ↔ ∃ r, r ∈ rows ∧ p r = true.
Proof.
  induction rows as [|r0 rows IH]; simpl.
  - split; [discriminate | intros (r & Hr & _); inversion Hr].
  - destruct (p r0) eqn:Hp.
    + split; [intros _; exists r0; split; [left | done] | done].
    + rewrite IH. split.
      * intros (r & Hr & Hpr). exists r. split; [by right | done].
      * intros (r & Hr & Hpr). apply elem_of_cons in Hr as [-> | Hr].
        -- congruence.
        -- by exists r.
Qed.

Lemma exists_where_false p rows :
  exists_where p rows = false ↔ ∀ r, r ∈ rows → p r = false.
Proof.
  rewrite <- not_true_iff_false, exists_where_spec. split.
  - intros Hno r Hr. destruct (p r) eqn:Hp; [|done].
    exfalso. apply Hno. by exists r.
  - intros Hall (r & Hr & Hp). rewrite (Hall r Hr) in Hp. discriminate.
Qed.

Lemma exists_where_app p rows rows' :
  exists_where p (rows ++ rows') = exists_where p rows || exists_where p rows'.
Proof.
  induction rows as [|r rows IH]; simpl; [done|]. by destruct (p r).
Qed.

Lemma first_where_exists p rows :
  is_Some (first_where p rows) ↔ exists_where p rows = true.
Proof.
  induction rows as [|r rows IH]; simpl.
  - split; [intros [? [=]] | discriminate].
  - destruct (p r); [|done]. split; [done | by eexists].
Qed.

Lemma first_where_Some p rows r :
  first_where p rows = Some r → r ∈ rows ∧ p r = true.
Proof.
  induction rows as [|r0 rows IH]; simpl; [discriminate|].
  destruct (p r0) eqn:Hp.
  - intros [= ->]. split; [left | done].
  - intros [Hr Hpr]%IH. split; [by right | done].
Qed.

Lemma del_where_filter p rows :
  del_where p rows = filter (λ r, p r = false) rows.
Proof.
  induction rows as [|r rows IH]; simpl; [done|].
  destruct (p r) eqn:Hp.
  - rewrite filter_cons_False; [done | congruence].
  - rewrite filter_cons_True; [by f_equal | done].
Qed.

Lemma del_where_elem p rows r :
  r ∈ del_where p rows ↔ r ∈ rows ∧ p r = false.
Proof. rewrite del_where_filter, list_elem_of_filter. tauto. Qed.

Lemma del_where_absent p rows :
  exists_where p rows = false → del_where p rows = rows.
Proof.
  induction rows as [|r rows IH]; simpl; [done|].
  destruct (p r); [discriminate|]. intros H. by rewrite IH.
Qed.

Variable same_key : Row → Row → bool.
Hypothesis key_refl : ∀ r, same_key r r = true.

Lemma insert_ignore_app new rows :
  (insert_ignore same_key new rows).1 =
  rows ++ (insert_ignore same_key new rows).2.
Proof.
  revert rows. induction new as [|r new IH]; intros rows; simpl.
  - by rewrite app_nil_r.
  - unfold insert. destruct (exists_where (same_key r) rows); [apply IH|].
    specialize (IH (rows ++ [r])).
    destruct (insert_ignore same_key new (rows ++ [r])) as [rows'' ins].
    simpl in *. by rewrite IH, <- app_assoc.
Qed.

(** Whatever was stored before the statement is never reported. *)
Lemma insert_ignore_fresh new rows r :
  r ∈ (insert_ignore same_key new rows).2 →
  r ∈ new ∧ exists_where (same_key r) rows = false.
Proof.
  revert rows. induction new as [|r0 new IH]; intros rows; simpl.
  - inversion 1.
  - unfold insert. destruct (exists_where (same_key r0) rows) eqn:Hex.
    + intros [Hr Hk]%IH. split; [by right | done].
    + specialize (IH (rows ++ [r0])).
      destruct (insert_ignore same_key new (rows ++ [r0])) as [rows'' ins].
      simpl in *. intros [-> | Hr]%elem_of_cons.
      * split; [left | done].
      * destruct (IH Hr) as [Hin Hk]. split; [by right|].
        rewrite exists_where_app in Hk. by apply orb_false_iff in Hk as [? _].
Qed.

(** Every key of the statement is stored afterwards. *)
Lemma insert_ignore_stored new rows r :
  r ∈ new →
  exists_where (same_key r) (insert_ignore same_key new rows).1 = true.
Proof.
  revert rows. induction new as [|r0 new IH]; intros rows; [inversion 1|].
  intros Hr. rewrite insert_ignore_app. simpl. unfold insert.
  destruct (exists_where (same_key r0) rows) eqn:Hex.
  - apply elem_of_cons in Hr as [-> | Hr].
    + by rewrite exists_where_app, Hex.
    + rewrite <- insert_ignore_app. by apply IH.
  - pose proof (insert_ignore_app new (rows ++ [r0])) as Happ.
    specialize (IH (rows ++ [r0])).
    destruct (insert_ignore same_key new (rows ++ [r0])) as [rows'' ins].
    simpl in *. apply elem_of_cons in Hr as [-> | Hr].
    + rewrite exists_where_app. simpl. rewrite key_refl.
      apply orb_true_r.
    + replace (rows ++ r0 :: ins) with rows''; [by apply IH|].
      by rewrite Happ, <- app_assoc.
Qed.

(** A statement all of whose keys are stored writes nothing. *)
Lemma insert_ignore_all_stored new rows :
  (∀ r, r ∈ new → exists_where (same_key r) rows = true) →
  insert_ignore same_key new rows = (rows, []).
Proof.
  induction new as [|r new IH]; intros Hall; simpl; [done|].
  unfold insert. rewrite Hall by left. apply IH.
  intros r' Hr'. apply Hall. by right.
Qed.

Lemma insert_ignore_twice new rows :
  insert_ignore same_key new (insert_ignore same_key new rows).1 =
  ((insert_ignore same_key new rows).1, []).
Proof.
  apply insert_ignore_all_stored. intros r Hr. by apply insert_ignore_stored.
Qed.

End Table.
End KnexFacts.

(** ** The store *)

Module TagStoreFacts.
Import Knex KnexFacts TagStore.

Implicit Types (tag row : ITag) (ty v : string).

Lemma where_type_value_eq ty v row :
  where_type_value ty v row = true ↔ row = {| type := ty; value := v |}.
Proof.
  unfold where_type_value. rewrite andb_true_iff, !bool_decide_eq_true.
  destruct row as [ty' v']; simpl. split; [intros [-> ->]; done|].
  by intros [= -> ->].
Qed.

Lemma same_key_eq tag row : same_key tag row = true ↔ row = tag.
Proof.
  unfold same_key. rewrite andb_true_iff, !bool_decide_eq_true.
  destruct tag, row; simpl. split; [intros [-> ->]; done|].
  by intros [= -> ->].
Qed.

Lemma same_key_refl tag : same_key tag tag = true.
Proof. by apply same_key_eq. Qed.

Lemma stored_where ty v rows :
  exists_where (where_type_value ty v) rows = true ↔
  {| type := ty; value := v |} ∈ rows.
Proof.
  rewrite exists_where_spec. split.
  - intros (row & Hin & ->%where_type_value_eq). done.
  - intros Hin. eexists. split; [done|]. by apply where_type_value_eq.
Qed.

Lemma stored_key tag (rows : list ITag) :
  exists_where (same_key tag) rows = true ↔ tag ∈ rows.
Proof.
  rewrite exists_where_spec. split.
  - intros (row & Hin & ->%same_key_eq). done.
  - intros Hin. exists tag. split; [done|]. apply same_key_refl.
Qed.

Lemma first_where_key ty v (rows : list ITag) :
  first_where (where_type_value ty v) rows =
  if decide ({| type := ty; value := v |} ∈ rows)
  then Some {| type := ty; value := v |} else None.
Proof.
  destruct (first_where (where_type_value ty v) rows) as [row|] eqn:Hf.
  - apply first_where_Some in Hf as [Hin ->%where_type_value_eq].
    by rewrite decide_True.
  - rewrite decide_False; [done|]. intros Hin%stored_where.
    apply first_where_exists in Hin as [? Hin]. congruence.
Qed.

Lemma tag_eta tag : {| type := type tag; value := value tag |} = tag.
Proof. by destruct tag. Qed.

Section Store.
Context {Bus : Type} (wrapTimer : DbTime → Bus → Bus).
Implicit Types (w : World Bus).

Local Abbreviation emit := (emit wrapTimer).
Local Abbreviation getTag := (getTag wrapTimer).
Local Abbreviation exists_ := (exists_ wrapTimer).
Local Abbreviation createTag := (createTag wrapTimer).
Local Abbreviation deleteTag := (deleteTag wrapTimer).

(** [getTag] in closed form. *)
Lemma getTag_eq ty v w :
  getTag ty v w =
  (if decide ({| type := ty; value := v |} ∈ tags w)
   then Fulfilled {| type := ty; value := v |}
   else Rejected (NotFoundError
          ("No tag with type: [" +:+ ty +:+ "] and value [" +:+ v +:+ "]")),
   emit {| store := "tag"; action := "getTag" |} w).
Proof.
  unfold TagStore.getTag, Promise.await, db_first, stopTimer, throw, resolve.
  simpl.
  rewrite first_where_key. by case_decide.
Qed.

Lemma exists_eq tag w :
  exists_ tag w =
  (Fulfilled (bool_decide (tag ∈ tags w)),
   emit {| store := "tag"; action := "exists" |} w).
Proof.
  unfold TagStore.exists_, Promise.await, db_exists, stopTimer, resolve.
  simpl.
  do 2 f_equal. apply eq_true_iff_eq.
  by rewrite stored_where, tag_eta, bool_decide_eq_true.
Qed.

(** C6: [getTag type value] is fulfilled with the tag exactly when a row
    with that type and value is stored, and is rejected with
    [NotFoundError] exactly when there is none; the table is left as it
    was. *)
Theorem getTag_raises_iff_absent ty v w :
  ((getTag ty v w).1 = Fulfilled {| type := ty; value := v |} ↔
   {| type := ty; value := v |} ∈ tags w) ∧
  ((getTag ty v w).1 =
     Rejected (NotFoundError
       ("No tag with type: [" +:+ ty +:+ "] and value [" +:+ v +:+ "]")) ↔
   {| type := ty; value := v |} ∉ tags w) ∧
  tags (getTag ty v w).2 = tags w.
Proof.
  rewrite getTag_eq. simpl. repeat split; case_decide; try done.
Qed.

(** C10: [exists] answers [true] exactly when [getTag] on the same type
    and value is fulfilled, and [false] exactly when it is rejected with
    [NotFoundError]; [exists] is never rejected, and neither of the two
    changes the table. *)
Theorem exists_agrees_with_getTag tag w :
  ((exists_ tag w).1 = Fulfilled true ↔
   ∃ t, (getTag (type tag) (value tag) w).1 = Fulfilled t) ∧
  ((exists_ tag w).1 = Fulfilled false ↔
   ∃ m, (getTag (type tag) (value tag) w).1 = Rejected (NotFoundError m)) ∧
  (∃ b, (exists_ tag w).1 = Fulfilled b) ∧
  tags (exists_ tag w).2 = tags w ∧
  tags (getTag (type tag) (value tag) w).2 = tags w.
Proof.
  rewrite exists_eq, getTag_eq, tag_eta. simpl.
  repeat split; try (by eexists).
  - intros [= Hb%bool_decide_eq_true]. rewrite decide_True by done. by eexists.
  - intros [t Ht]. case_decide; [|done]. by rewrite bool_decide_eq_true_2.
  - intros [= Hb%bool_decide_eq_false]. rewrite decide_False by done.
    by eexists.
  - intros [m Hm]. case_decide; [done|]. by rewrite bool_decide_eq_false_2.
Qed.

Lemma createTag_eq tag w :
  createTag tag w =
  if decide (tag ∈ tags w)
  then (Rejected (UniqueViolation COLUMNS), w)
  else (Fulfilled tt,
        emit {| store := "tag"; action := "createTag" |}
          (with_tags (tags w ++ [tag]) w)).
Proof.
  unfold TagStore.createTag, Promise.await, db_insert, insert, stopTimer.
  destruct (exists_where (same_key tag) (tags w)) eqn:Hex.
  - apply stored_key in Hex. by rewrite decide_True.
  - rewrite decide_False; [done|]. intros Hin%stored_key. congruence.
Qed.

(** C7: [createTag tag] is rejected exactly when a row with the type and
    value of [tag] is stored, and then nothing changes; otherwise it is
    fulfilled and the table is the old one with [tag] appended. *)
Theorem createTag_fails_iff_duplicate tag w :
  ((∃ e, (createTag tag w).1 = Rejected e) ↔ tag ∈ tags w) ∧
  ((createTag tag w).1 = Fulfilled tt ↔ tag ∉ tags w) ∧
  (createTag tag w).2 =
    (if decide (tag ∈ tags w) then w
     else emit {| store := "tag"; action := "createTag" |}
            (with_tags (tags w ++ [tag]) w)) ∧
  tags (createTag tag w).2 =
    (if decide (tag ∈ tags w) then tags w else tags w ++ [tag]).
Proof.
  rewrite createTag_eq.
  repeat split; case_decide; simpl; try done; try (by eexists).
  by intros [e He].
Qed.

Lemma deleteTag_eq tag w :
  deleteTag tag w =
  (Fulfilled tt,
   emit {| store := "tag"; action := "deleteTag" |}
     (with_tags (filter (λ row, row ≠ tag) (tags w)) w)).
Proof.
  unfold TagStore.deleteTag, Promise.await, db_del, stopTimer. simpl.
  do 3 f_equal.
  rewrite del_where_filter. apply list_filter_iff. intros row.
  rewrite <- not_true_iff_false, where_type_value_eq, tag_eta. done.
Qed.

(** C8: [deleteTag tag] is always fulfilled; the rows left are those of
    the old table that differ from [tag] in type or value, in their old
    order; when no row has the type and value of [tag] the table stays as
    it was. *)
Theorem deleteTag_removes_exactly tag w :
  (deleteTag tag w).1 = Fulfilled tt ∧
  tags (deleteTag tag w).2 = filter (λ row, row ≠ tag) (tags w) ∧
  (∀ row, row ∈ tags (deleteTag tag w).2 ↔ row ∈ tags w ∧ row ≠ tag) ∧
  (tag ∉ tags w → tags (deleteTag tag w).2 = tags w).
Proof.
  rewrite deleteTag_eq. simpl. split; [done|]. split; [done|]. split.
  - intros row. rewrite list_elem_of_filter. tauto.
  - intros Hno. induction (tags w) as [|row rows IH]; [done|].
    apply not_elem_of_cons in Hno as [Hne Hno].
    rewrite filter_cons_True by done. f_equal. by apply IH.
Qed.

(** [bulkImport] of a list that is not empty, in closed form. *)
Lemma bulkImport_some (new : list ITag) (w : World Bus) :
  new ≠ [] →
  bulkImport new w =
  (Fulfilled (insert_ignore same_key new (tags w)).2,
   with_tags (insert_ignore same_key new (tags w)).1 w).
Proof.
  intros Hnew. unfold bulkImport, db_insert_ignore.
  destruct new as [|tag new]; [done|].
  by destruct (insert_ignore same_key (tag :: new) (tags w)).
Qed.

(** C2, as amended: [bulkImport] of a list that is not empty is never
    rejected.  The first run appends the rows it reports, each of them a
    row of the argument that was not stored before, and after it every row
    of the argument is stored; a second run with the same argument reports
    no row and leaves the state of the first run as it is.  [bulkImport]
    of the empty list is rejected with [The query is empty] and changes
    nothing. *)
Theorem bulkImport_idempotent (new : list ITag) (w : World Bus) :
  (new ≠ [] →
   (∃ inserted,
      (bulkImport new w).1 = Fulfilled inserted ∧
      tags (bulkImport new w).2 = tags w ++ inserted ∧
      (∀ tag, tag ∈ inserted → tag ∈ new ∧ tag ∉ tags w) ∧
      (∀ tag, tag ∈ new → tag ∈ tags (bulkImport new w).2)) ∧
   bulkImport new (bulkImport new w).2 =
     (Fulfilled [], (bulkImport new w).2)) ∧
  (new = [] →
   bulkImport new w = (Rejected (KnexError "The query is empty"), w)).
Proof.
  split; [|by intros ->].
  intros Hnew. rewrite !bulkImport_some by done. simpl. split.
  - pose proof (insert_ignore_app same_key new (tags w)) as Happ.
    pose proof (insert_ignore_fresh same_key new (tags w)) as Hfresh.
    pose proof (insert_ignore_stored same_key same_key_refl new (tags w))
      as Hstored.
    destruct (insert_ignore same_key new (tags w)) as [rows' inserted].
    simpl in *. exists inserted. split; [done|]. split; [done|]. split.
    + intros tag [Hnew' Hk]%Hfresh. split; [done|].
      intros Hin%stored_key. congruence.
    + intros tag Hin. by apply stored_key, Hstored.
  - by rewrite (insert_ignore_twice same_key same_key_refl new (tags w)).
Qed.

End Store.
End TagStoreFacts.

(** * Properties of the admin feature API *)

Module AdminFacts.
Import AdminApi.

Implicit Types (s : Stores) (f g : FeatureToggle) (n p : string)
  (b : FeatureBody) (l : list FeatureToggle) (c : Call) (cs : list Call)
  (now : nat).

(** ** Looking toggles up by name *)

Lemma named_spec n f : named n f = true ↔ name f = n.
Proof. unfold named. apply bool_decide_eq_true. Qed.

Lemma getFeature_Some n l f :
  getFeature n l = Some f → f ∈ l ∧ name f = n.
Proof.
  intros [Hin Hn]%find_some. split; [by apply list_elem_of_In|].
  by apply named_spec.
Qed.

Lemma getFeature_None n l : getFeature n l = None ↔ n ∉ name <$> l.
Proof.
  unfold getFeature. induction l as [|g l IH]; simpl.
  - split; [intros _ H; inversion H | done].
  - rewrite not_elem_of_cons. destruct (named n g) eqn:Hg.
    + apply named_spec in Hg. split; [done | intros [? _]; done].
    + rewrite IH. split; [|tauto]. intros Hl. split; [|done].
      intros ->. rewrite <- not_true_iff_false, named_spec in Hg. done.
Qed.

Lemma hasFeature_spec n l : hasFeature n l = true ↔ n ∈ name <$> l.
Proof.
  unfold hasFeature. destruct (getFeature n l) as [f|] eqn:Hf.
  - apply getFeature_Some in Hf as [Hin <-].
    split; [intros _; by apply list_elem_of_fmap_2 | done].
  - apply getFeature_None in Hf. split; [done | tauto].
Qed.

Lemma hasFeature_false n l : hasFeature n l = false ↔ n ∉ name <$> l.
Proof. by rewrite <- not_true_iff_false, hasFeature_spec. Qed.

(** A prefix in the sense of [String.prefix] is a literal prefix. *)
Lemma prefix_spec p n : String.prefix p n = true ↔ ∃ rest, n = p +:+ rest.
Proof.
  revert n. induction p as [|a p IH]; intros n.
  - split; [intros _; by exists n | by destruct n].
  - destruct n as [|a' n]; simpl.
    + split; [done | intros [rest [=]]].
    + destruct (Ascii.ascii_dec a a') as [->|Hne].
      * rewrite IH. split; intros [rest Hr]; exists rest.
        -- by rewrite Hr.
        -- by injection Hr.
      * split; [done|]. intros [rest [= -> _]]. done.
Qed.

(** ** The tags attached to a name *)

Lemma tagsOf_app n (l1 l2 : list (string * ITag)) :
  tagsOf n (l1 ++ l2) = tagsOf n l1 ++ tagsOf n l2.
Proof.
  induction l1 as [|[n' t'] l1 IH]; simpl; [done|].
  case_bool_decide; simpl; by rewrite IH.
Qed.

Lemma tagsOf_filter n (l : list (string * ITag)) :
  tagsOf n l = snd <$> filter (λ nt, nt.1 = n) l.
Proof.
  induction l as [|[n' t'] l IH]; simpl; [done|]. case_bool_decide.
  - rewrite filter_cons_True by done. rewrite fmap_cons. by f_equal.
  - by rewrite filter_cons_False.
Qed.

Lemma tagsOf_elem n (t : ITag) (l : list (string * ITag)) :
  t ∈ tagsOf n l ↔ (n, t) ∈ l.
Proof.
  induction l as [|[n' t'] l IH]; simpl.
  - split; by intros ?%elem_of_nil.
  - rewrite (elem_of_cons l). case_bool_decide as Hn.
    + subst n'. rewrite elem_of_cons, IH. split.
      * intros [->|?]; [by left | by right].
      * intros [[= ->]|?]; [by left | by right].
    + rewrite IH. split; [by right|]. intros [[= -> _]|?]; done.
Qed.

(** ** The event log only grows *)

Section Log.
Variable isUrlFriendly : string → bool.

Lemma respond_events {A} (code : nat) (payload : A → Payload)
    (r : Failure + A * Stores) s :
  (∀ a s', r = inr (a, s') → ∃ newer, events s' = newer ++ events s) →
  ∃ newer, events (respond code payload r s).2 = newer ++ events s.
Proof.
  intros Hr. destruct r as [e | [a s']]; simpl; [by exists []|]. by eapply Hr.
Qed.

Lemma createFeature_events now b s f s' :
  createFeature isUrlFriendly now b s = inr (f, s') →
  events s' = snapshot feature_created f now s :: events s.
Proof.
  unfold createFeature. destruct (validateName _ _ _); [done|].
  destruct (validateDefinition b); [done|]. by intros [= <- <-].
Qed.

Lemma updateFeature_events now n b s f s' :
  updateFeature now n b s = inr (f, s') →
  events s' = snapshot feature_updated f now s :: events s.
Proof.
  unfold updateFeature. destruct (getFeature n _); [|done].
  destruct (validateDefinition b); [done|]. by intros [= <- <-].
Qed.

Lemma archiveFeature_events now n s f s' :
  archiveFeature now n s = inr (f, s') →
  events s' = snapshot feature_archived f now s :: events s.
Proof.
  unfold archiveFeature. destruct (getFeature n _); [|done].
  by intros [= <- <-].
Qed.

Lemma toggle_events n to s f s' :
  toggle n to s = inr (f, s') → events s' = events s.
Proof.
  unfold toggle. destruct (getFeature n _); [|done]. by intros [= <- <-].
Qed.

Lemma setStale_events n on s f s' :
  setStale n on s = inr (f, s') → events s' = events s.
Proof.
  unfold setStale. destruct (getFeature n _); [|done]. by intros [= <- <-].
Qed.

Lemma tagFeature_events now n t s t' s' :
  tagFeature isUrlFriendly now n t s = inr (t', s') →
  ∃ e, events s' = e :: events s.
Proof.
  unfold tagFeature. destruct (negb _); [done|].
  destruct (knownFeature n s); [|done]. intros [= <- <-].
  eexists. simpl. f_equal. by case_bool_decide.
Qed.

Lemma untagFeature_events now n t s t' s' :
  untagFeature now n t s = inr (t', s') → ∃ e, events s' = e :: events s.
Proof.
  unfold untagFeature. destruct (knownFeature n s); [|done].
  intros [= <- <-]. by eexists.
Qed.

Lemma call_events c s :
  ∃ newer, getEvents (call isUrlFriendly c s) = newer ++ getEvents s.
Proof.
  unfold getEvents.
  destruct c as [now [q|b|n|n b|n|n to|n on|n t|n] | now n t]; simpl;
    try (by exists []); try apply respond_events.
  - intros f s' ->%createFeature_events. by eexists [_].
  - destruct (validateName _ _ _); by exists [].
  - intros f s' ->%updateFeature_events. by eexists [_].
  - intros f s' ->%archiveFeature_events. by eexists [_].
  - intros f s' ->%toggle_events. by exists [].
  - intros f s' ->%setStale_events. by exists [].
  - intros t' s' [e ->]%tagFeature_events. by exists [e].
  - destruct (untagFeature now n t s) as [e | [t' s']] eqn:Hu; [by exists []|].
    apply untagFeature_events in Hu as [e ->]. by exists [e].
Qed.

Lemma run_events cs s :
  ∃ newer, getEvents (run isUrlFriendly cs s) = newer ++ getEvents s.
Proof.
  revert s. induction cs as [|c cs IH]; intros s; simpl; [by exists []|].
  destruct (IH (call isUrlFriendly c s)) as [newer ->].
  destruct (call_events c s) as [newer' ->].
  exists (newer ++ newer'). by rewrite app_assoc.
Qed.

(** What a successful [tagFeature] leaves: the toggles as they were, and
    the tag among the tags of the name. *)
Lemma tagFeature_inr now n (t t' : ITag) s s' :
  tagFeature isUrlFriendly now n t s = inr (t', s') →
  features s' = features s ∧ archive s' = archive s ∧
  t ∈ getTagsForFeature n s'.
Proof.
  unfold tagFeature. destruct (negb _); [done|].
  destruct (knownFeature n s); [|done]. intros [= <- <-].
  unfold getTagsForFeature. case_bool_decide as Hin; simpl; [done|].
  split; [done|]. split; [done|]. rewrite tagsOf_app, elem_of_app. right.
  simpl. rewrite bool_decide_eq_true_2 by done. left.
Qed.

(** C1: archiving an active toggle through [DELETE
    /api/admin/features/:name] answers 200 and puts exactly one event in
    front of the log: a feature-archived event whose [tags] are the tags
    attached to the toggle at that moment.  The event holds them itself:
    whatever is called afterwards, it stays in the log as it was
    written.  The tags attached to the toggle are those that the stores
    hold for its name, in the order in which they were attached; a tag
    that [POST /api/admin/features/:name/tags] has just attached is among
    the tags of the event. *)
Theorem archive_event_carries_tags now n f s :
  getFeature n (features s) = Some f →
  status (handle isUrlFriendly now (DELETE_features n) s).1 = 200 ∧
  getEvents (handle isUrlFriendly now (DELETE_features n) s).2 =
    {| type := feature_archived; data := f;
       tags := getTagsForFeature n s; timestamp := now |} :: getEvents s ∧
  (∀ cs, ∃ newer,
    getEvents
      (run isUrlFriendly cs
         (handle isUrlFriendly now (DELETE_features n) s).2) =
    newer ++
    {| type := feature_archived; data := f;
       tags := getTagsForFeature n s; timestamp := now |} :: getEvents s) ∧
  getTagsForFeature n s = snd <$> filter (λ nt, nt.1 = n) (featureTags s) ∧
  (∀ t, t ∈ getTagsForFeature n s ↔ (n, t) ∈ featureTags s) ∧
  (∀ now0 t,
     status (handle isUrlFriendly now0 (POST_features_tags n t) s).1 = 201 →
     ∃ e,
       getEvents
         (handle isUrlFriendly now (DELETE_features n)
            (handle isUrlFriendly now0 (POST_features_tags n t) s).2).2 =
       e :: getEvents
              (handle isUrlFriendly now0 (POST_features_tags n t) s).2 ∧
       type e = feature_archived ∧ data e = f ∧ t ∈ tags e).
Proof.
  intros Hf. pose proof (getFeature_Some _ _ _ Hf) as [_ Hn].
  assert (∀ s1, getFeature n (features s1) = Some f →
     getEvents (handle isUrlFriendly now (DELETE_features n) s1).2 =
     {| type := feature_archived; data := f;
        tags := getTagsForFeature n s1; timestamp := now |} :: getEvents s1)
    as Hlog.
  { intros s1 Hf1. simpl. unfold archiveFeature. rewrite Hf1. simpl.
    unfold snapshot. by rewrite Hn. }
  split; [|split; [by apply Hlog|split; [|split; [|split]]]].
  - simpl. unfold archiveFeature. by rewrite Hf.
  - intros cs. rewrite <- (Hlog s Hf). apply run_events.
  - apply tagsOf_filter.
  - intros t. apply tagsOf_elem.
  - intros now0 t. simpl.
    destruct (tagFeature isUrlFriendly now0 n t s) as [e|[t' s1]] eqn:Ht;
      simpl; [by destruct e|].
    intros _. apply tagFeature_inr in Ht as (Hfs & _ & Hin).
    pose proof (Hlog s1) as Hlog1. rewrite Hfs in Hlog1.
    specialize (Hlog1 Hf). simpl in Hlog1. rewrite Hlog1.
    by eexists.
Qed.

End Log.

(** ** The invariants of the data model *)

Section Invariant.
Variable isUrlFriendly : string → bool.

Local Abbreviation valid := (valid isUrlFriendly).
Local Abbreviation consistent := (consistent isUrlFriendly).
Local Abbreviation call := (call isUrlFriendly).
Local Abbreviation run := (run isUrlFriendly).

Lemma consistent_empty : consistent empty.
Proof. split; simpl; constructor. Qed.

(** Being consistent is a matter of which toggles are stored, not of
    their order. *)
Lemma consistent_perm s s' :
  features s' ++ archive s' ≡ₚ features s ++ archive s →
  consistent s → consistent s'.
Proof. intros Hp [Hv Hn]. split; by rewrite Hp. Qed.

Lemma validateName_None n s :
  validateName isUrlFriendly n s = None ↔
  isUrlFriendly n = true ∧
  (n ∉ name <$> features s) ∧ (n ∉ name <$> archive s).
Proof.
  unfold validateName. rewrite <- !hasFeature_false.
  destruct (isUrlFriendly n), (hasFeature n (features s)),
    (hasFeature n (archive s)); simpl; split; try done;
    intros (? & ? & ?); done.
Qed.

Lemma validateDefinition_None b :
  validateDefinition b = None ↔
  default [] (body_strategies b) ≠ [] ∧
  distinct (variant_name <$> default [] (body_variants b)) = true.
Proof.
  unfold validateDefinition.
  destruct (body_strategies b) as [[|st sts]|]; simpl;
    [split; [done | intros [? _]; done]| |split; [done | intros [? _]; done]].
  destruct (distinct _); split; try done. by intros [_ ?].
Qed.

Lemma valid_toggleOf n b :
  isUrlFriendly n = true → validateDefinition b = None →
  valid (toggleOf n b).
Proof.
  intros Hn [Hs Hv]%validateDefinition_None. by split; [|split].
Qed.

Lemma createFeature_inr now b s f s' :
  createFeature isUrlFriendly now b s = inr (f, s') →
  validateName isUrlFriendly (body_name b) s = None ∧
  validateDefinition b = None ∧
  f = toggleOf (body_name b) b ∧
  features s' = features s ++ [f] ∧ archive s' = archive s ∧
  featureTags s' = featureTags s.
Proof.
  unfold createFeature. destruct (validateName _ _ _); [done|].
  destruct (validateDefinition b); [done|]. by intros [= <- <-].
Qed.

Lemma createFeature_consistent now b s f s' :
  createFeature isUrlFriendly now b s = inr (f, s') →
  consistent s → consistent s'.
Proof.
  intros (Hname & Hdef & -> & Hf & Ha & _)%createFeature_inr [Hv Hn].
  apply validateName_None in Hname as (Hurl & Hact & Harc).
  unfold AdminApi.consistent. rewrite Hf, Ha.
  assert ((features s ++ [toggleOf (body_name b) b]) ++ archive s ≡ₚ
          toggleOf (body_name b) b :: features s ++ archive s) as ->
    by solve_Permutation.
  split.
  - constructor; [by apply valid_toggleOf | done].
  - rewrite fmap_cons. apply NoDup_cons. split; [|done].
    rewrite fmap_app, elem_of_app. simpl. tauto.
Qed.

Lemma replace_names f l : name <$> replace f l = name <$> l.
Proof.
  unfold replace. induction l as [|g l IH]; [done|].
  rewrite !fmap_cons, IH. f_equal.
  destruct (named (name f) g) eqn:Hg; [|done]. by apply named_spec in Hg.
Qed.

Lemma replace_valid f l :
  valid f → Forall valid l → Forall valid (replace f l).
Proof.
  intros Hf Hl. unfold replace. apply Forall_fmap.
  eapply Forall_impl; [exact Hl|]. intros g Hg. simpl.
  by destruct (named (name f) g).
Qed.

Lemma replace_consistent f s :
  valid f → consistent s →
  consistent (with_features (replace f (features s)) s).
Proof.
  intros Hf [[Hva Hvb]%Forall_app Hn]. split; simpl.
  - apply Forall_app. split; [by apply replace_valid | done].
  - revert Hn. by rewrite !fmap_app, replace_names.
Qed.

Lemma consistent_lookup n s g :
  consistent s → getFeature n (features s) = Some g →
  valid g ∧ name g = n.
Proof.
  intros [Hv _] [Hin Hn]%getFeature_Some. split; [|done].
  rewrite Forall_forall in Hv. apply Hv, elem_of_app. by left.
Qed.

Lemma remove_absent n l : n ∉ name <$> l → remove n l = l.
Proof.
  unfold remove. induction l as [|g l IH]; [done|].
  rewrite fmap_cons. intros [Hne Hl]%not_elem_of_cons.
  rewrite filter_cons_True by done. f_equal. by apply IH.
Qed.

(** A stored name occurs once, so removing it removes one toggle. *)
Lemma remove_perm n l f :
  NoDup (name <$> l) → getFeature n l = Some f → l ≡ₚ f :: remove n l.
Proof.
  induction l as [|g l IH]; [done|]. rewrite fmap_cons.
  intros [Hg Hnd]%NoDup_cons. unfold getFeature, remove. simpl.
  destruct (named n g) eqn:Hng.
  - intros [= <-]. apply named_spec in Hng. subst n.
    rewrite filter_cons_False by (intros H; by apply H).
    fold (remove (name g) l). by rewrite remove_absent.
  - intros Hf. rewrite filter_cons_True.
    + fold (remove n l). rewrite (IH Hnd Hf) at 1. apply Permutation_swap.
    + rewrite <- not_true_iff_false, named_spec in Hng. done.
Qed.

Lemma archiveFeature_inr now n s f s' :
  archiveFeature now n s = inr (f, s') →
  getFeature n (features s) = Some f ∧
  features s' = remove n (features s) ∧ archive s' = archive s ++ [f] ∧
  featureTags s' = featureTags s.
Proof.
  unfold archiveFeature. destruct (getFeature n _) eqn:Hf; [|done].
  by intros [= <- <-].
Qed.

Lemma archiveFeature_consistent now n s f s' :
  archiveFeature now n s = inr (f, s') → consistent s → consistent s'.
Proof.
  intros (Hf & Hfs & Ha & _)%archiveFeature_inr Hs.
  apply (consistent_perm s); [|done]. rewrite Hfs, Ha.
  destruct Hs as [_ Hn]. rewrite fmap_app in Hn.
  apply NoDup_app in Hn as [Hn _].
  rewrite (remove_perm n (features s) f Hn Hf) at 2. solve_Permutation.
Qed.

Lemma call_consistent c s : consistent s → consistent (call c s).
Proof.
  intros Hs.
  destruct c as [now [q|b|n|n b|n|n to|n on|n t|n] | now n t]; simpl;
    try done.
  - destruct (createFeature _ now b s) as [e|[f s']] eqn:Hc; [done|].
    by eapply createFeature_consistent.
  - by destruct (validateName _ _ _).
  - unfold updateFeature.
    destruct (getFeature n (features s)) as [g|] eqn:Hg; [|done].
    destruct (validateDefinition b) eqn:Hb; [done|]. simpl.
    destruct (consistent_lookup _ _ _ Hs Hg) as [[Hurl _] Hn].
    apply (consistent_perm
             (with_features (replace (toggleOf n b) (features s)) s));
      [done|].
    apply replace_consistent; [|done]. apply valid_toggleOf; [|done].
    by rewrite <- Hn.
  - destruct (archiveFeature now n s) as [e|[f s']] eqn:Ha; [done|].
    by eapply archiveFeature_consistent.
  - unfold toggle.
    destruct (getFeature n (features s)) as [g|] eqn:Hg; [|done]. simpl.
    destruct (consistent_lookup _ _ _ Hs Hg) as [Hv _].
    by apply replace_consistent.
  - unfold setStale.
    destruct (getFeature n (features s)) as [g|] eqn:Hg; [|done]. simpl.
    destruct (consistent_lookup _ _ _ Hs Hg) as [Hv _].
    by apply replace_consistent.
  - unfold tagFeature. destruct (negb _); [done|].
    destruct (knownFeature n s); [|done]. simpl.
    by case_bool_decide.
  - unfold untagFeature. by destruct (knownFeature n s).
Qed.

Lemma run_consistent cs s : consistent s → consistent (run cs s).
Proof.
  revert s. induction cs as [|c cs IH]; intros s Hs; simpl; [done|].
  by apply IH, call_consistent.
Qed.

(** Whatever was called since the stores were empty, they are
    consistent. *)
Lemma reachable_consistent cs : consistent (run cs empty).
Proof. apply run_consistent, consistent_empty. Qed.

End Invariant.

(** ** The claims about the feature endpoints *)

Section Claims.
Variable isUrlFriendly : string → bool.

Local Abbreviation handle := (handle isUrlFriendly).
Local Abbreviation run := (run isUrlFriendly).
Local Abbreviation consistent := (consistent isUrlFriendly).

(** A name that matches the pattern and is not among the stored names,
    which are known, passes [validateName]. *)
Ltac fresh_name :=
  apply validateName_None;
  repeat match goal with H : _ = _ |- _ => rewrite H end;
  split; [done|]; split; apply (bool_decide_unpack _); by vm_compute.

Lemma createFeature_ok now b s :
  validateName isUrlFriendly (body_name b) s = None →
  validateDefinition b = None →
  createFeature isUrlFriendly now b s =
  inr (toggleOf (body_name b) b,
       append (snapshot feature_created (toggleOf (body_name b) b) now s)
         (with_features (features s ++ [toggleOf (body_name b) b]) s)).
Proof. intros Hn Hd. unfold createFeature. by rewrite Hn, Hd. Qed.

Lemma validateName_active n s :
  isUrlFriendly n = true → hasFeature n (features s) = true →
  validateName isUrlFriendly n s = Some (NameExists false).
Proof. intros Hu Hf. unfold validateName. by rewrite Hu, Hf. Qed.

Lemma validateName_archived n s :
  isUrlFriendly n = true → hasFeature n (features s) = false →
  hasFeature n (archive s) = true →
  validateName isUrlFriendly n s = Some (NameExists true).
Proof. intros Hu Hf Ha. unfold validateName. by rewrite Hu, Hf, Ha. Qed.

Lemma consistent_stored_name n s :
  consistent s → n ∈ name <$> features s ++ archive s →
  isUrlFriendly n = true.
Proof.
  intros [Hv _] (f & -> & Hf)%list_elem_of_fmap.
  rewrite Forall_forall in Hv. by destruct (Hv f Hf).
Qed.

Lemma consistent_archived_not_active n s :
  consistent s → hasFeature n (archive s) = true →
  hasFeature n (features s) = false.
Proof.
  intros [_ Hn] Ha%hasFeature_spec. apply hasFeature_false. intros Hf.
  rewrite fmap_app in Hn. apply NoDup_app in Hn as (_ & Hdisj & _).
  by apply (Hdisj n).
Qed.

(** C3: in stores that satisfy the data model, a request to create a
    toggle, or to validate a name, under a name that an active toggle
    bears is refused with 409 and the message [A toggle with that name
    already exists]; under a name that an archived toggle bears, with 409
    and [An archived toggle with that name already exists].  The stores
    are left as they were. *)
Theorem taken_name_is_a_conflict now b s :
  consistent s →
  (hasFeature (body_name b) (features s) = true →
   refused (handle now (POST_features b) s) 409
     "A toggle with that name already exists" s ∧
   refused (handle now (POST_features_validate (body_name b)) s) 409
     "A toggle with that name already exists" s) ∧
  (hasFeature (body_name b) (archive s) = true →
   refused (handle now (POST_features b) s) 409
     "An archived toggle with that name already exists" s ∧
   refused (handle now (POST_features_validate (body_name b)) s) 409
     "An archived toggle with that name already exists" s).
Proof.
  intros Hs. split.
  - intros Hact.
    assert (isUrlFriendly (body_name b) = true) as Hu.
    { apply (consistent_stored_name _ s Hs). rewrite fmap_app, elem_of_app.
      left. by apply hasFeature_spec. }
    simpl. unfold createFeature. by rewrite validateName_active.
  - intros Harc.
    assert (isUrlFriendly (body_name b) = true) as Hu.
    { apply (consistent_stored_name _ s Hs). rewrite fmap_app, elem_of_app.
      right. by apply hasFeature_spec. }
    pose proof (consistent_archived_not_active _ _ Hs Harc) as Hact.
    simpl. unfold createFeature. by rewrite validateName_archived.
Qed.

(** C4, as amended: a request to create a toggle whose name matches the
    pattern and is borne by no active or archived toggle, with at least
    one strategy and no two variants of the same name, is answered 201
    with the toggle, which is stored after the toggles already there.  A
    request whose name does not match the pattern is refused with 400 and
    the message ["name" must be URL friendly], whatever else it holds. *)
Theorem name_pattern_decides_creation now b s :
  (isUrlFriendly (body_name b) = true →
   hasFeature (body_name b) (features s) = false →
   hasFeature (body_name b) (archive s) = false →
   (∃ st sts, body_strategies b = Some (st :: sts)) →
   distinct (variant_name <$> default [] (body_variants b)) = true →
   status (handle now (POST_features b) s).1 = 201 ∧
   body (handle now (POST_features b) s).1 =
     Feature (toggleOf (body_name b) b) ∧
   features (handle now (POST_features b) s).2 =
     features s ++ [toggleOf (body_name b) b]) ∧
  (isUrlFriendly (body_name b) = false →
   refused (handle now (POST_features b) s) 400
     (dquote +:+ "name" +:+ dquote +:+ " must be URL friendly") s).
Proof.
  split.
  - intros Hu Hact Harc (st & sts & Hst) Hvar. simpl.
    rewrite createFeature_ok; [done| |].
    + apply validateName_None. by rewrite <- !hasFeature_false.
    + apply validateDefinition_None. by rewrite Hst.
  - intros Hu. simpl. unfold createFeature, validateName. by rewrite Hu.
Qed.

(** C5, as amended: a request to create a toggle without strategies (the
    field absent or empty) always fails and leaves the stores as they
    were.  The status is 400, except that a name which matches the pattern
    and is borne by an active or archived toggle is answered with the 409
    of the name conflict.  No toggle without a strategy is ever stored,
    whatever is called from the empty stores on. *)
Theorem no_strategy_no_toggle now b s :
  body_strategies b = None ∨ body_strategies b = Some [] →
  (handle now (POST_features b) s).2 = s ∧
  status (handle now (POST_features b) s).1 =
    (if isUrlFriendly (body_name b) &&
        (hasFeature (body_name b) (features s) ||
         hasFeature (body_name b) (archive s))
     then 409 else 400) ∧
  ∀ cs f,
    f ∈ features (run cs empty) ++ archive (run cs empty) →
    strategies f ≠ [].
Proof.
  intros Hb.
  assert (validateDefinition b = Some NoStrategies) as Hd.
  { unfold validateDefinition. by destruct Hb as [-> | ->]. }
  split; [|split].
  - simpl. unfold createFeature.
    destruct (validateName _ _ _); [done|]. by rewrite Hd.
  - simpl. unfold createFeature, validateName. rewrite Hd.
    by destruct (isUrlFriendly (body_name b)),
      (hasFeature (body_name b) (features s)),
      (hasFeature (body_name b) (archive s)).
  - intros cs f Hf.
    destruct (reachable_consistent isUrlFriendly cs) as [Hv _].
    rewrite Forall_forall in Hv. by destruct (Hv f Hf) as (_ & ? & _).
Qed.

(** What a successful creation leaves in the stores. *)
Lemma post_stores now b s :
  validateName isUrlFriendly (body_name b) s = None →
  validateDefinition b = None →
  features (call isUrlFriendly (http now (POST_features b)) s) =
    features s ++ [toggleOf (body_name b) b] ∧
  archive (call isUrlFriendly (http now (POST_features b)) s) = archive s.
Proof. intros Hn Hd. simpl. by rewrite createFeature_ok. Qed.

(** C9: [GET /api/admin/features?namePrefix=p] answers 200 with the
    active toggles whose name begins with [p], in the order in which they
    are stored, which is the order of creation since a created toggle is
    stored last.  With [a_team.toggle], [a_tag.toggle] and [b_tag.toggle]
    created in this order in empty stores, [namePrefix=a_] gives the first
    two, in this order. *)
Theorem namePrefix_filter :
  (∀ now p s,
     ∃ l,
       handle now
         (GET_features
            {| tag := None; namePrefix := Some p; query_project := None |}) s
       = ({| status := 200; body := Features 1 l |}, s) ∧
       l = filter (λ f, String.prefix p (name f)) (features s) ∧
       (∀ f, f ∈ l ↔ f ∈ features s ∧ ∃ rest, name f = p +:+ rest) ∧
       l `sublist_of` features s) ∧
  (∀ now b s f s',
     createFeature isUrlFriendly now b s = inr (f, s') →
     features s' = features s ++ [f]) ∧
  (∀ t1 t2 t3 now b1 b2 b3,
     isUrlFriendly "a_team.toggle" = true →
     isUrlFriendly "a_tag.toggle" = true →
     isUrlFriendly "b_tag.toggle" = true →
     body_name b1 = "a_team.toggle" → validateDefinition b1 = None →
     body_name b2 = "a_tag.toggle" → validateDefinition b2 = None →
     body_name b3 = "b_tag.toggle" → validateDefinition b3 = None →
     (handle now
        (GET_features
           {| tag := None; namePrefix := Some "a_"; query_project := None |})
        (run [http t1 (POST_features b1); http t2 (POST_features b2);
              http t3 (POST_features b3)] empty)).1 =
     {| status := 200;
        body := Features 1 [toggleOf "a_team.toggle" b1;
                            toggleOf "a_tag.toggle" b2] |}).
Proof.
  split; [|split].
  - intros now p s. eexists. split; [reflexivity|].
    assert (getFeatures
              {| tag := None; namePrefix := Some p; query_project := None |} s
            = filter (λ f, String.prefix p (name f)) (features s)) as ->.
    { unfold getFeatures. apply list_filter_iff. intros f.
      unfold matches. simpl. by rewrite andb_true_r. }
    split; [done|]. split; [|apply sublist_filter].
    intros f. rewrite list_elem_of_filter, Is_true_true, prefix_spec. tauto.
  - by intros now b s f s' (_ & _ & _ & ? & _)%createFeature_inr.
  - intros t1 t2 t3 now b1 b2 b3 H1 H2 H3 N1 D1 N2 D2 N3 D3.
    cbn [AdminApi.run].
    destruct (post_stores t1 b1 empty) as [F1 A1];
      [rewrite N1; by fresh_name|done|].
    set (s1 := call isUrlFriendly (http t1 (POST_features b1)) empty) in *.
    rewrite N1 in F1.
    destruct (post_stores t2 b2 s1) as [F2 A2];
      [rewrite N2; by fresh_name|done|].
    set (s2 := call isUrlFriendly (http t2 (POST_features b2)) s1) in *.
    rewrite N2, F1 in F2. rewrite A1 in A2.
    destruct (post_stores t3 b3 s2) as [F3 A3];
      [rewrite N3; by fresh_name|done|].
    set (s3 := call isUrlFriendly (http t3 (POST_features b3)) s2) in *.
    rewrite N3, F2 in F3.
    cbn [AdminApi.handle fst]. unfold getFeatures. rewrite F3. reflexivity.
Qed.

End Claims.
End AdminFacts.

(** ** The pattern [unreserved_only] *)

Module PatternFacts.
Import AdminApi.

Lemma unreserved_is_ascii c :
  unreserved c = true → (nat_of_ascii c < 128)%nat.
Proof.
  unfold unreserved.
  rewrite !orb_true_iff, !andb_true_iff, !Nat.leb_le, !Nat.eqb_eq. lia.
Qed.

Lemma all_chars_elem (p : ascii → bool) (n : string) c :
  all_chars p n = true → c ∈ list_ascii_of_string n → p c = true.
Proof.
  induction n as [|a n IH]; simpl; [by inversion 2|].
  intros [Ha Hn]%andb_true_iff [-> | Hc]%elem_of_cons; [done | by apply IH].
Qed.

(** A name with a space, a [$], a [&] or a byte that is not ASCII does
    not match. *)
Lemma unreserved_only_rejects (n : string) c :
  c ∈ list_ascii_of_string n →
  c = " "%char ∨ c = "$"%char ∨ c = "&"%char ∨ (128 ≤ nat_of_ascii c)%nat →
  unreserved_only n = false.
Proof.
  intros Hc Hbad. apply not_true_iff_false. unfold unreserved_only.
  intros [_ Hall]%andb_true_iff.
  pose proof (all_chars_elem _ _ _ Hall Hc) as Hu.
  destruct Hbad as [-> | [-> | [-> | Hge]]]; try discriminate.
  apply unreserved_is_ascii in Hu. lia.
Qed.

End PatternFacts.

(** * The tests of [feature.test.js], on the pattern [unreserved_only] *)

Module Tests.
Import AdminApi Fixtures AdminFacts.

Local Abbreviation P := unreserved_only.

(** The names that the tests expect to pass, and to fail, validation. *)
Example valid_feature_names :
  P <$> ["com.example"; "com.exampleFeature"; "com.example-company.feature";
         "com.example-company.exampleFeature"; "123";
         "com.example-company.someFeature.123"]
  = [true; true; true; true; true; true].
Proof. reflexivity. Qed.

Example invalid_feature_names :
  P <$> ["some example"; "some$example"; "me&me"; "   "; "o2%ae"; "ØÆ`"]
  = [false; false; false; false; false; false].
Proof. reflexivity. Qed.

Example missing_strategy_is_400 :
  status
    (handle P 1 (POST_features (missing_strategy "sample.missing.strategy"))
       empty).1 = 400.
Proof. reflexivity. Qed.

Example same_variants_is_400 :
  status (handle P 1 (POST_features (same_variants "t.variant")) empty).1 = 400.
Proof. reflexivity. Qed.

(** A tag detached after the toggle was archived is gone from the toggle
    and still in the event. *)
Example untag_after_archive :
  getTagsForFeature "a_team.toggle"
    (run P [http 3 (DELETE_features "a_team.toggle");
            untag 4 "a_team.toggle" simple_tag] tagged) = [] ∧
  (type <$> getEvents
     (run P [http 3 (DELETE_features "a_team.toggle");
             untag 4 "a_team.toggle" simple_tag] tagged)) !! 1
    = Some feature_archived ∧
  (tags <$> getEvents
     (run P [http 3 (DELETE_features "a_team.toggle");
             untag 4 "a_team.toggle" simple_tag] tagged)) !! 1
    = Some [simple_tag].
Proof. by vm_compute. Qed.

(** C1, on the toggle of the test: [a_team.toggle], to which the tag
    [simple:tag] is attached before it is archived. *)
Lemma archive_event_carries_tags_witness :
  getFeature "a_team.toggle" (features tagged)
    = Some (toggleOf "a_team.toggle" (definition "a_team.toggle")) ∧
  getFeature "a_team.toggle" (features untagged)
    = Some (toggleOf "a_team.toggle" (definition "a_team.toggle")) ∧
  status
    (handle P 2 (POST_features_tags "a_team.toggle" simple_tag) untagged).1
    = 201 ∧
  status (handle P 3 (DELETE_features "a_team.toggle") tagged).1 = 200 ∧
  getEvents (handle P 3 (DELETE_features "a_team.toggle") tagged).2 =
    {| type := feature_archived;
       data := toggleOf "a_team.toggle" (definition "a_team.toggle");
       tags := [simple_tag];
       timestamp := 3 |} :: getEvents tagged ∧
  ∃ e,
    getEvents
      (handle P 3 (DELETE_features "a_team.toggle")
         (handle P 2 (POST_features_tags "a_team.toggle" simple_tag)
            untagged).2).2 =
    e :: getEvents
           (handle P 2 (POST_features_tags "a_team.toggle" simple_tag)
              untagged).2 ∧
    type e = feature_archived ∧
    data e = toggleOf "a_team.toggle" (definition "a_team.toggle") ∧
    simple_tag ∈ tags e.
Proof.
  split; [reflexivity|]. split; [reflexivity|]. split; [reflexivity|].
  destruct (archive_event_carries_tags P 3 "a_team.toggle"
              (toggleOf "a_team.toggle" (definition "a_team.toggle")) tagged
              eq_refl)
    as (Hstatus & Hlog & _).
  destruct (archive_event_carries_tags P 3 "a_team.toggle"
              (toggleOf "a_team.toggle" (definition "a_team.toggle")) untagged
              eq_refl)
    as (_ & _ & _ & _ & _ & Htagged).
  split; [exact Hstatus|]. split; [exact Hlog|].
  exact (Htagged 2 simple_tag eq_refl).
Defined.

(** C3, on the stores of the two tests of a reused name: [ts] is active
    and [ts.archived] is archived. *)
Lemma taken_name_is_a_conflict_witness :
  consistent P active_and_archived ∧
  hasFeature "ts" (features active_and_archived) = true ∧
  hasFeature "ts.archived" (archive active_and_archived) = true ∧
  refused (handle P 4 (POST_features (definition "ts")) active_and_archived)
    409 "A toggle with that name already exists" active_and_archived ∧
  refused (handle P 4 (POST_features_validate "ts") active_and_archived)
    409 "A toggle with that name already exists" active_and_archived ∧
  refused
    (handle P 4 (POST_features (definition "ts.archived"))
       active_and_archived)
    409 "An archived toggle with that name already exists"
    active_and_archived ∧
  refused
    (handle P 4 (POST_features_validate "ts.archived") active_and_archived)
    409 "An archived toggle with that name already exists"
    active_and_archived.
Proof.
  assert (consistent P active_and_archived) as Hs
    by (apply (bool_decide_unpack _); by vm_compute).
  split; [exact Hs|]. split; [reflexivity|]. split; [reflexivity|].
  destruct (taken_name_is_a_conflict P 4 (definition "ts")
              active_and_archived Hs) as [Hactive _].
  destruct (taken_name_is_a_conflict P 4 (definition "ts.archived")
              active_and_archived Hs) as [_ Harchived].
  destruct (Hactive eq_refl) as [Hcreate Hvalidate].
  destruct (Harchived eq_refl) as [Hcreate' Hvalidate'].
  split; [exact Hcreate|]. split; [exact Hvalidate|].
  split; [exact Hcreate'|]. exact Hvalidate'.
Defined.

(** C5, on the request of the test of the missing strategy. *)
Lemma no_strategy_no_toggle_witness :
  (body_strategies (missing_strategy "sample.missing.strategy") = None ∨
   body_strategies (missing_strategy "sample.missing.strategy") = Some []) ∧
  (handle P 1 (POST_features (missing_strategy "sample.missing.strategy"))
     empty).2 = empty ∧
  status
    (handle P 1 (POST_features (missing_strategy "sample.missing.strategy"))
       empty).1 = 400 ∧
  ∀ cs f,
    f ∈ features (run P cs empty) ++ archive (run P cs empty) →
    strategies f ≠ [].
Proof.
  split; [by left|].
  apply (no_strategy_no_toggle P 1
           (missing_strategy "sample.missing.strategy") empty).
  by left.
Defined.

(** C4, on the first name of the test of the valid names. *)
Lemma name_pattern_decides_creation_witness :
  P "com.example" = true ∧
  hasFeature "com.example" (features empty) = false ∧
  hasFeature "com.example" (archive empty) = false ∧
  body_strategies (definition "com.example") = Some [default_strategy] ∧
  status (handle P 1 (POST_features (definition "com.example")) empty).1
    = 201 ∧
  features (handle P 1 (POST_features (definition "com.example")) empty).2
    = [toggleOf "com.example" (definition "com.example")].
Proof.
  destruct (name_pattern_decides_creation P 1 (definition "com.example") empty)
    as [Hcreated _].
  destruct Hcreated as (Hstatus & _ & Hfeatures);
    [reflexivity | reflexivity | reflexivity | by eexists _, _ | reflexivity |].
  by repeat split.
Defined.

(** C9, on the bodies of the test of the name prefix. *)
Lemma namePrefix_filter_witness :
  P "a_team.toggle" = true ∧ P "a_tag.toggle" = true ∧
  P "b_tag.toggle" = true ∧
  validateDefinition (definition "a_team.toggle") = None ∧
  (handle P 4 (GET_features (by_prefix "a_"))
     (run P [http 1 (POST_features (definition "a_team.toggle"));
             http 2 (POST_features (definition "a_tag.toggle"));
             http 3 (POST_features (definition "b_tag.toggle"))] empty)).1 =
  {| status := 200;
     body := Features 1
               [toggleOf "a_team.toggle" (definition "a_team.toggle");
                toggleOf "a_tag.toggle" (definition "a_tag.toggle")] |}.
Proof.
  repeat (split; [reflexivity|]).
  destruct (namePrefix_filter P) as (_ & _ & Hscenario).
  by apply Hscenario.
Defined.

(** C8, on a tag that is not stored. *)
Lemma deleteTag_removes_exactly_witness :
  (other_tag ∉ TagStore.tags one_tag) ∧
  TagStore.tags (TagStore.deleteTag stopped_timers other_tag one_tag).2
    = TagStore.tags one_tag.
Proof.
  assert (other_tag ∉ TagStore.tags one_tag) as Habsent
    by (apply (bool_decide_unpack _); by vm_compute).
  split; [exact Habsent|].
  by apply (TagStoreFacts.deleteTag_removes_exactly stopped_timers
              other_tag one_tag).
Defined.

(** C4 as it stands fails: [ts] matches the pattern and the request has
    a strategy, yet the answer is 409 when a toggle [ts] exists; and
    [t.variant] matches the pattern and the request has a strategy, yet
    the answer is 400 when two variants bear the same name. *)
Lemma url_friendly_name_refused :
  P "ts" = true ∧
  body_strategies (definition "ts") = Some [default_strategy] ∧
  status (handle P 2 (POST_features (definition "ts")) active_ts).1 = 409 ∧
  P "t.variant" = true ∧
  body_strategies (same_variants "t.variant") = Some [default_strategy] ∧
  status (handle P 1 (POST_features (same_variants "t.variant")) empty).1
    = 400.
Proof. by vm_compute. Qed.

(** C5 as it stands fails: the request has no strategy, yet the answer
    is 409, not 400, when a toggle of its name exists. *)
Lemma no_strategy_taken_name_is_409 :
  body_strategies (missing_strategy "ts") = None ∧
  status (handle P 2 (POST_features (missing_strategy "ts")) active_ts).1
    = 409.
Proof. by vm_compute. Qed.

End Tests.

(** * The methods of the tag store, one after the other *)

Module TagStoreCompose.
Import Knex KnexFacts TagStore TagStoreFacts TagStoreCalls.

Implicit Types (tag row : ITag) (ty v : string) (rows new : list ITag).

(** ** More on the queries *)

Lemma select_where_filter {Row} (p : Row → bool) (l : list Row) :
  select_where p l = filter (λ r, p r = true) l.
Proof.
  induction l as [|r l IH]; simpl; [done|]. destruct (p r) eqn:Hp.
  - rewrite filter_cons_True by done. by f_equal.
  - rewrite filter_cons_False; [done | congruence].
Qed.

Lemma select_where_all {Row} (l : list Row) : select_where (λ _, true) l = l.
Proof. induction l as [|r l IH]; simpl; [done | by f_equal]. Qed.

Lemma del_where_all {Row} (l : list Row) : del_where (λ _, true) l = [].
Proof. by induction l. Qed.

Lemma map_rowToTag rows : map rowToTag rows = rows.
Proof.
  induction rows as [|row rows IH]; simpl; [done|].
  unfold rowToTag at 1. by rewrite tag_eta, IH.
Qed.

Lemma insert_ignore_elem new rows tag :
  tag ∈ (insert_ignore same_key new rows).1 ↔ tag ∈ rows ∨ tag ∈ new.
Proof.
  split.
  - rewrite insert_ignore_app, elem_of_app.
    intros [?|[? _]%insert_ignore_fresh]; tauto.
  - intros [Hin | Hin].
    + rewrite insert_ignore_app, elem_of_app. by left.
    + by apply stored_key, insert_ignore_stored; [apply same_key_refl|].
Qed.

Lemma insert_ignore_reported new rows :
  NoDup (insert_ignore same_key new rows).2 ∧
  (insert_ignore same_key new rows).2 `sublist_of` new.
Proof.
  revert rows. induction new as [|tag new IH]; intros rows; simpl.
  - split; [constructor | done].
  - unfold insert. destruct (exists_where (same_key tag) rows) eqn:Hex.
    + destruct (IH rows) as [Hnd Hsub]. split; [done | by constructor].
    + pose proof (insert_ignore_fresh same_key new (rows ++ [tag])) as Hfresh.
      destruct (IH (rows ++ [tag])) as [Hnd Hsub].
      destruct (insert_ignore same_key new (rows ++ [tag])) as [rows' ins].
      simpl in *. split; [|by constructor].
      apply NoDup_cons. split; [|done]. intros [_ Hk]%Hfresh.
      rewrite exists_where_app in Hk. simpl in Hk.
      rewrite same_key_refl, orb_true_r in Hk. discriminate.
Qed.

Lemma insert_ignore_NoDup new rows :
  NoDup rows → NoDup (insert_ignore same_key new rows).1.
Proof.
  revert rows. induction new as [|tag new IH]; intros rows Hnd; simpl; [done|].
  unfold insert. destruct (exists_where (same_key tag) rows) eqn:Hex.
  - by apply IH.
  - specialize (IH (rows ++ [tag])).
    destruct (insert_ignore same_key new (rows ++ [tag])) as [rows' ins].
    simpl in *. apply IH. apply NoDup_app. split; [done|].
    split; [|apply NoDup_singleton].
    intros t Ht ->%list_elem_of_singleton.
    apply stored_key in Ht. congruence.
Qed.

Lemma insert_ignore_all_fresh new rows :
  NoDup new → (∀ tag, tag ∈ new → tag ∉ rows) →
  insert_ignore same_key new rows = (rows ++ new, new).
Proof.
  revert rows. induction new as [|tag new IH]; intros rows Hnd Hfresh; simpl.
  - by rewrite app_nil_r.
  - apply NoDup_cons in Hnd as [Htag Hnd]. unfold insert.
    destruct (exists_where (same_key tag) rows) eqn:Hex.
    + apply stored_key in Hex. exfalso. by apply (Hfresh tag); [left|].
    + rewrite IH; [by rewrite <- app_assoc | done |].
      intros t Ht [Hin | ->%list_elem_of_singleton]%elem_of_app; [|done].
      by apply (Hfresh t); [right|].
Qed.

Lemma filter_absent tag rows : tag ∉ rows → filter (λ row, row ≠ tag) rows = rows.
Proof.
  induction rows as [|row rows IH]; [done|].
  intros [Hne Hno]%not_elem_of_cons.
  rewrite filter_cons_True by done. f_equal. by apply IH.
Qed.

(** ** The methods in closed form *)

Section Store.
Context {Bus : Type} (wrapTimer : DbTime → Bus → Bus).
Implicit Types (w : World Bus) (m : Method) (ms : list Method).

Local Abbreviation emit := (emit wrapTimer).
Local Abbreviation getTagsByType := (getTagsByType wrapTimer).
Local Abbreviation getAll := (getAll wrapTimer).
Local Abbreviation getTag := (getTag wrapTimer).
Local Abbreviation exists_ := (exists_ wrapTimer).
Local Abbreviation createTag := (createTag wrapTimer).
Local Abbreviation deleteTag := (deleteTag wrapTimer).
Local Abbreviation dropTags := (dropTags wrapTimer).
Local Abbreviation perform := (perform wrapTimer).
Local Abbreviation performAll := (performAll wrapTimer).
Local Abbreviation createEach := (createEach wrapTimer).

Lemma getAll_eq w :
  getAll w =
  (Fulfilled (tags w), emit {| store := "tag"; action := "getAll" |} w).
Proof.
  unfold TagStore.getAll, Promise.await, db_select, stopTimer, resolve.
  simpl. by rewrite select_where_all, map_rowToTag.
Qed.

Lemma getTagsByType_eq ty w :
  getTagsByType ty w =
  (Fulfilled (filter (λ row, type row = ty) (tags w)),
   emit {| store := "tag"; action := "getTagByType" |} w).
Proof.
  unfold TagStore.getTagsByType, Promise.await, db_select, stopTimer, resolve.
  simpl. rewrite select_where_filter, map_rowToTag. do 2 f_equal.
  apply list_filter_iff. intros row. unfold where_type.
  apply bool_decide_eq_true.
Qed.

Lemma dropTags_eq w :
  dropTags w =
  (Fulfilled tt,
   emit {| store := "tag"; action := "dropTags" |} (with_tags [] w)).
Proof.
  unfold TagStore.dropTags, Promise.await, db_del, stopTimer. simpl.
  by rewrite del_where_all.
Qed.

Lemma bulkImport_eq new w :
  bulkImport new w =
  match new with
  | [] => (Rejected (KnexError "The query is empty"), w)
  | _ :: _ =>
      (Fulfilled (insert_ignore same_key new (tags w)).2,
       with_tags (insert_ignore same_key new (tags w)).1 w)
  end.
Proof.
  destruct new as [|tag new]; [done|]. by apply bulkImport_some.
Qed.

Lemma perform_eq m w :
  perform m w =
  match m with
  | call_getTagsByType ty =>
      (Fulfilled (answer_tags (filter (λ row, type row = ty) (tags w))),
       emit {| store := "tag"; action := "getTagByType" |} w)
  | call_getAll =>
      (Fulfilled (answer_tags (tags w)),
       emit {| store := "tag"; action := "getAll" |} w)
  | call_getTag ty v =>
      (if decide ({| type := ty; value := v |} ∈ tags w)
       then Fulfilled (answer_tag {| type := ty; value := v |})
       else Rejected (NotFoundError
              ("No tag with type: [" +:+ ty +:+ "] and value [" +:+ v +:+ "]")),
       emit {| store := "tag"; action := "getTag" |} w)
  | call_exists tag =>
      (Fulfilled (answer_boolean (bool_decide (tag ∈ tags w))),
       emit {| store := "tag"; action := "exists" |} w)
  | call_createTag tag =>
      if decide (tag ∈ tags w)
      then (Rejected (UniqueViolation COLUMNS), w)
      else (Fulfilled answer_void,
            emit {| store := "tag"; action := "createTag" |}
              (with_tags (tags w ++ [tag]) w))
  | call_deleteTag tag =>
      (Fulfilled answer_void,
       emit {| store := "tag"; action := "deleteTag" |}
         (with_tags (filter (λ row, row ≠ tag) (tags w)) w))
  | call_dropTags =>
      (Fulfilled answer_void,
       emit {| store := "tag"; action := "dropTags" |} (with_tags [] w))
  | call_bulkImport new =>
      match new with
      | [] => (Rejected (KnexError "The query is empty"), w)
      | _ :: _ =>
          (Fulfilled (answer_tags (insert_ignore same_key new (tags w)).2),
           with_tags (insert_ignore same_key new (tags w)).1 w)
      end
  end.
Proof.
  destruct m; unfold TagStoreCalls.perform, answering, Promise.await, resolve;
    rewrite ?getTagsByType_eq, ?getAll_eq, ?(getTag_eq wrapTimer),
      ?(exists_eq wrapTimer), ?(createTag_eq wrapTimer),
      ?(deleteTag_eq wrapTimer), ?dropTags_eq, ?bulkImport_eq;
    try done; try (by case_decide).
  by destruct new.
Qed.

(** The table after a call, whatever it settles to. *)
Lemma perform_tags m w :
  tags (perform m w).2 =
  match m with
  | call_createTag tag =>
      if decide (tag ∈ tags w) then tags w else tags w ++ [tag]
  | call_deleteTag tag => filter (λ row, row ≠ tag) (tags w)
  | call_dropTags => []
  | call_bulkImport new => (insert_ignore same_key new (tags w)).1
  | _ => tags w
  end.
Proof.
  rewrite perform_eq. destruct m as [| | | | | | |new]; try done.
  - by case_decide.
  - by destruct new.
Qed.

(** A stored tag occurs once in a table without duplicates, so that
    taking it out and putting it last rearranges the table. *)
Lemma filter_other_perm tag rows :
  NoDup rows → tag ∈ rows → rows ≡ₚ filter (λ row, row ≠ tag) rows ++ [tag].
Proof.
  induction rows as [|row rows IH]; [by inversion 2|].
  intros [Hrow Hnd]%NoDup_cons Hin.
  destruct (decide (row = tag)) as [->|Hne].
  - rewrite filter_cons_False by (intros H; by apply H).
    rewrite filter_absent by done. by rewrite Permutation_app_comm.
  - rewrite filter_cons_True by done.
    apply elem_of_cons in Hin as [->|Hin]; [done|].
    simpl. f_equiv. by apply IH.
Qed.

(** ** Reading *)

(** X1: [getAll] is never rejected, answers the rows in the order of the
    table and leaves the table as it was; a tag is among them exactly
    when [getTag] is fulfilled with it, and exactly when [exists] answers
    [true]. *)
Theorem getAll_lists_what_is_found w :
  (getAll w).1 = Fulfilled (tags w) ∧
  tags (getAll w).2 = tags w ∧
  ∀ tag,
    (tag ∈ tags w ↔
     (getTag (type tag) (value tag) w).1 = Fulfilled tag) ∧
    (tag ∈ tags w ↔ (exists_ tag w).1 = Fulfilled true).
Proof.
  rewrite getAll_eq. split; [done|]. split; [done|]. intros tag.
  rewrite (getTag_eq wrapTimer), (exists_eq wrapTimer), tag_eta. simpl. split.
  - case_decide; split; try done.
  - split; [intros Hin; by rewrite bool_decide_eq_true_2|].
    by intros [= Hb%bool_decide_eq_true].
Qed.

(** X2: [getTagsByType type] is never rejected and leaves the table as it
    was; it answers the stored tags of that type and no other, in the
    order of the table, and the empty list exactly when no stored tag has
    the type. *)
Theorem getTagsByType_selects_the_type ty w :
  ∃ l,
    (getTagsByType ty w).1 = Fulfilled l ∧
    (∀ tag, tag ∈ l ↔ tag ∈ tags w ∧ type tag = ty) ∧
    l `sublist_of` tags w ∧
    (l = [] ↔ ∀ tag, tag ∈ tags w → type tag ≠ ty) ∧
    tags (getTagsByType ty w).2 = tags w.
Proof.
  rewrite getTagsByType_eq. eexists. split; [reflexivity|].
  assert (∀ tag, tag ∈ filter (λ row, type row = ty) (tags w) ↔
                 tag ∈ tags w ∧ type tag = ty) as Hin
    by (intros tag; rewrite list_elem_of_filter; tauto).
  split; [done|]. split; [apply sublist_filter|]. split; [|done]. split.
  - intros Hnil tag Hw Hty.
    assert (tag ∈ filter (λ row, type row = ty) (tags w)) as Hf
      by by apply Hin.
    rewrite Hnil in Hf. inversion Hf.
  - intros Hnone.
    destruct (filter (λ row, type row = ty) (tags w)) as [|tag l] eqn:Hf;
      [done|].
    assert (tag ∈ tag :: l) as [Hw Hty]%Hin by left. by destruct (Hnone tag).
Qed.

(** ** Writing, then reading *)

(** X3: after [createTag tag], fulfilled or rejected, the tag is stored:
    [getTag] on its type and value is fulfilled with it and [exists]
    answers [true]; for any other tag [exists] answers what it answered
    before. *)
Theorem createTag_then_found tag w :
  (getTag (type tag) (value tag) (createTag tag w).2).1 = Fulfilled tag ∧
  (exists_ tag (createTag tag w).2).1 = Fulfilled true ∧
  ∀ other,
    other ≠ tag →
    (exists_ other (createTag tag w).2).1 = (exists_ other w).1.
Proof.
  assert (∀ other, other ∈ tags (createTag tag w).2 ↔
                   other = tag ∨ other ∈ tags w) as Hin.
  { intros other. rewrite (createTag_eq wrapTimer). case_decide; simpl.
    - split; [by right | by intros [->|?]].
    - rewrite elem_of_app, list_elem_of_singleton. tauto. }
  split; [|split].
  - rewrite (getTag_eq wrapTimer), tag_eta. simpl.
    rewrite decide_True; [done|]. apply Hin. by left.
  - rewrite (exists_eq wrapTimer). simpl.
    rewrite bool_decide_eq_true_2; [done|]. apply Hin. by left.
  - intros other Hne. rewrite !(exists_eq wrapTimer). simpl. f_equal.
    apply bool_decide_ext. rewrite Hin. split; [by intros [?|?] | by right].
Qed.

(** X4: a fulfilled [createTag] is undone by [deleteTag] of the same tag:
    the table is again the table before the two calls. *)
Theorem createTag_deleteTag_undo tag w :
  (createTag tag w).1 = Fulfilled tt →
  (deleteTag tag (createTag tag w).2).1 = Fulfilled tt ∧
  tags (deleteTag tag (createTag tag w).2).2 = tags w.
Proof.
  rewrite (deleteTag_eq wrapTimer), (createTag_eq wrapTimer).
  case_decide as Hin; [done|]. intros _. simpl. split; [done|].
  rewrite filter_app, filter_absent by done.
  rewrite filter_cons_False by (intros H; by apply H). apply app_nil_r.
Qed.

(** X5: after [deleteTag tag] the tag is not stored: [getTag] on its type
    and value is rejected with [NotFoundError], [exists] answers [false],
    and [createTag] of it is fulfilled; for any other tag [exists] answers
    what it answered before. *)
Theorem deleteTag_then_absent tag w :
  (getTag (type tag) (value tag) (deleteTag tag w).2).1 =
    Rejected (NotFoundError
      ("No tag with type: [" +:+ type tag +:+ "] and value [" +:+
       value tag +:+ "]")) ∧
  (exists_ tag (deleteTag tag w).2).1 = Fulfilled false ∧
  (createTag tag (deleteTag tag w).2).1 = Fulfilled tt ∧
  ∀ other,
    other ≠ tag →
    (exists_ other (deleteTag tag w).2).1 = (exists_ other w).1.
Proof.
  assert (∀ other, other ∈ tags (deleteTag tag w).2 ↔
                   other ∈ tags w ∧ other ≠ tag) as Hin.
  { intros other. rewrite (deleteTag_eq wrapTimer). simpl.
    rewrite list_elem_of_filter. tauto. }
  assert (tag ∉ tags (deleteTag tag w).2) as Hno by (rewrite Hin; tauto).
  split; [|split; [|split]].
  - rewrite (getTag_eq wrapTimer), tag_eta. simpl.
    by rewrite decide_False.
  - rewrite (exists_eq wrapTimer). simpl. by rewrite bool_decide_eq_false_2.
  - rewrite (createTag_eq wrapTimer). by rewrite decide_False.
  - intros other Hne. rewrite !(exists_eq wrapTimer). simpl.
    f_equal. apply bool_decide_ext. rewrite Hin. tauto.
Qed.

(** X6: [deleteTag] twice leaves the table that [deleteTag] once leaves,
    and two [deleteTag] leave the same table in either order. *)
Theorem deleteTag_idempotent_commutes tag other w :
  tags (deleteTag tag (deleteTag tag w).2).2 = tags (deleteTag tag w).2 ∧
  tags (deleteTag tag (deleteTag other w).2).2 =
    tags (deleteTag other (deleteTag tag w).2).2.
Proof.
  rewrite !(deleteTag_eq wrapTimer). simpl. split.
  - rewrite list_filter_filter. apply list_filter_iff. tauto.
  - rewrite !list_filter_filter. apply list_filter_iff. tauto.
Qed.

(** X7: a second [createTag] of the same tag is always rejected, on the
    unique key, and changes nothing, whether the first was fulfilled or
    rejected. *)
Theorem createTag_twice_rejected tag w :
  createTag tag (createTag tag w).2 =
  (Rejected (UniqueViolation COLUMNS), (createTag tag w).2).
Proof.
  rewrite (createTag_eq wrapTimer _ (createTag tag w).2).
  rewrite decide_True; [done|].
  rewrite (createTag_eq wrapTimer). case_decide; simpl; [done|].
  rewrite elem_of_app, list_elem_of_singleton. by right.
Qed.

(** X9: [dropTags] is never rejected and leaves an empty table: [getAll]
    then answers no tag, [exists] answers [false] for every tag,
    [createTag] of any tag is fulfilled, and [bulkImport] of a list
    without duplicates that is not empty reports the whole list. *)
Theorem dropTags_empties w :
  (dropTags w).1 = Fulfilled tt ∧
  tags (dropTags w).2 = [] ∧
  (getAll (dropTags w).2).1 = Fulfilled [] ∧
  (∀ tag, (exists_ tag (dropTags w).2).1 = Fulfilled false) ∧
  (∀ tag, (createTag tag (dropTags w).2).1 = Fulfilled tt) ∧
  (∀ new,
     NoDup new → new ≠ [] →
     (bulkImport new (dropTags w).2).1 = Fulfilled new).
Proof.
  assert (tags (dropTags w).2 = []) as Hempty by by rewrite dropTags_eq.
  split; [by rewrite dropTags_eq|]. split; [done|].
  split; [by rewrite getAll_eq, Hempty|]. split; [|split].
  - intros tag. rewrite (exists_eq wrapTimer), Hempty.
    rewrite bool_decide_eq_false_2; [done | by inversion 1].
  - intros tag. rewrite (createTag_eq wrapTimer), Hempty.
    rewrite decide_False; [done | by inversion 1].
  - intros new Hnd Hnew. rewrite bulkImport_some, Hempty by done. simpl.
    rewrite insert_ignore_all_fresh; [done | done |].
    intros tag _. by inversion 1.
Qed.

(** ** Importing *)

Lemma createEach_eq new w :
  (createEach new w).1 = (insert_ignore same_key new (tags w)).2 ∧
  tags (createEach new w).2 = (insert_ignore same_key new (tags w)).1.
Proof.
  revert w. induction new as [|tag new IH]; intros w; simpl; [done|].
  rewrite (createTag_eq wrapTimer). unfold insert.
  destruct (exists_where (same_key tag) (tags w)) eqn:Hex.
  - apply stored_key in Hex. rewrite decide_True by done. apply IH.
  - rewrite decide_False by (intros Hin%stored_key; congruence).
    specialize (IH (TagStore.emit wrapTimer
                      {| store := "tag"; action := "createTag" |}
                      (with_tags (tags w ++ [tag]) w))).
    simpl in IH.
    destruct (TagStoreCalls.createEach wrapTimer new _) as [created w''].
    destruct (insert_ignore same_key new (tags w ++ [tag])) as [rows' ins].
    simpl in *. destruct IH as [-> ->]. done.
Qed.

(** X10: [bulkImport] does to the table what creating the tags one after
    the other with [createTag] does, going on after each rejection; for a
    list that is not empty it is fulfilled, and reports the tags whose
    [createTag] is fulfilled. *)
Theorem bulkImport_is_createTag_each new w :
  tags (bulkImport new w).2 = tags (createEach new w).2 ∧
  (new ≠ [] → (bulkImport new w).1 = Fulfilled (createEach new w).1).
Proof.
  destruct (createEach_eq new w) as [-> ->]. split.
  - rewrite bulkImport_eq. by destruct new.
  - intros Hnew. by rewrite bulkImport_some.
Qed.

Lemma first_occurrences_filter (P : ITag → Prop) `{∀ tag, Decision (P tag)}
    (l : list ITag) :
  first_occurrences (filter P l) = filter P (first_occurrences l).
Proof.
  induction l as [|x l IH]; [done|]. cbn [first_occurrences].
  destruct (decide (P x)) as [Hx|Hx].
  - rewrite !filter_cons_True by done. cbn [first_occurrences].
    rewrite IH. f_equal. rewrite !list_filter_filter.
    apply list_filter_iff. tauto.
  - rewrite !filter_cons_False by done. rewrite IH, list_filter_filter.
    apply list_filter_iff. intros y. split; [|tauto].
    intros Hy. split; [done|]. by intros ->.
Qed.

Lemma insert_ignore_first new rows :
  (insert_ignore same_key new rows).2 =
  first_occurrences (filter (λ tag, tag ∉ rows) new).
Proof.
  revert rows. induction new as [|tag new IH]; intros rows; [done|].
  cbn [insert_ignore]. unfold insert.
  destruct (exists_where (same_key tag) rows) eqn:Hex.
  - apply stored_key in Hex. rewrite filter_cons_False by tauto. apply IH.
  - assert (tag ∉ rows) as Hno by (intros Hin%stored_key; congruence).
    specialize (IH (rows ++ [tag])).
    destruct (insert_ignore same_key new (rows ++ [tag])) as [rows' ins].
    simpl in IH. simpl. rewrite filter_cons_True by done.
    cbn [first_occurrences]. f_equal. rewrite IH.
    rewrite <- first_occurrences_filter, list_filter_filter. f_equal.
    apply list_filter_iff. intros y.
    rewrite elem_of_app, list_elem_of_singleton. tauto.
Qed.

(** X11: after [bulkImport new] the stored tags are those stored before
    and those of [new]; for a list that is not empty the reported tags
    are those of [new] that were not stored, each once, in the order of
    their first occurrence in [new]. *)
Theorem bulkImport_stores_the_union new (w : World Bus) :
  (∀ tag, tag ∈ tags (bulkImport new w).2 ↔ tag ∈ tags w ∨ tag ∈ new) ∧
  (new ≠ [] →
   ∃ reported,
     (bulkImport new w).1 = Fulfilled reported ∧
     reported = first_occurrences (filter (λ tag, tag ∉ tags w) new) ∧
     NoDup reported ∧
     reported `sublist_of` new ∧
     ∀ tag, tag ∈ reported ↔ tag ∈ new ∧ tag ∉ tags w).
Proof.
  split.
  - intros tag. rewrite bulkImport_eq.
    destruct new as [|t new]; [|apply insert_ignore_elem].
    simpl. split; [by left | by intros [?|?%elem_of_nil]].
  - intros Hnew. rewrite bulkImport_some by done. simpl.
    eexists. split; [reflexivity|]. split; [apply insert_ignore_first|].
    destruct (insert_ignore_reported new (tags w)) as [Hnd Hsub].
    split; [done|]. split; [done|]. intros tag. split.
    + intros [Hin Hk]%insert_ignore_fresh. split; [done|].
      intros Hst%stored_key. congruence.
    + intros [Hin Hno].
      assert (tag ∈ (insert_ignore same_key new (tags w)).1) as Hst
        by (apply insert_ignore_elem; by right).
      rewrite insert_ignore_app, elem_of_app in Hst. by destruct Hst.
Qed.

(** X12: [bulkImport] of a list that is not empty, of tags that differ
    from one another and from the stored ones, appends them all, in their
    order, and reports them all. *)
Theorem bulkImport_fresh_appends new (w : World Bus) :
  new ≠ [] → NoDup new → (∀ tag, tag ∈ new → tag ∉ tags w) →
  bulkImport new w = (Fulfilled new, with_tags (tags w ++ new) w).
Proof.
  intros Hnew Hnd Hfresh.
  by rewrite bulkImport_some, insert_ignore_all_fresh.
Qed.

(** ** The unique key *)

(** X8: whatever methods are called one after the other, a table without
    two rows of the same type and value stays without. *)
Theorem unique_key_is_kept ms w :
  NoDup (tags w) → NoDup (tags (performAll ms w)).
Proof.
  revert w. induction ms as [|m ms IH]; intros w Hnd; simpl; [done|].
  apply IH. rewrite perform_tags. destruct m; try done.
  - case_decide; [done|]. apply NoDup_app. split; [done|].
    split; [|apply NoDup_singleton].
    by intros t Ht ->%list_elem_of_singleton.
  - by apply NoDup_filter.
  - constructor.
  - by apply insert_ignore_NoDup.
Qed.

(** X13: in a table without duplicates, [deleteTag] of a stored tag takes
    one row out, [createTag] of it is then fulfilled, and the table after
    the two is the table before with the tag moved to the end. *)
Theorem deleteTag_createTag_moves_last tag w :
  NoDup (tags w) → tag ∈ tags w →
  S (length (tags (deleteTag tag w).2)) = length (tags w) ∧
  (createTag tag (deleteTag tag w).2).1 = Fulfilled tt ∧
  tags (createTag tag (deleteTag tag w).2).2 =
    filter (λ row, row ≠ tag) (tags w) ++ [tag] ∧
  tags (createTag tag (deleteTag tag w).2).2 ≡ₚ tags w.
Proof.
  intros Hnd Hin. pose proof (filter_other_perm tag (tags w) Hnd Hin) as Hp.
  assert (tag ∉ filter (λ row, row ≠ tag) (tags w)) as Hno
    by (rewrite list_elem_of_filter; tauto).
  rewrite (createTag_eq wrapTimer), (deleteTag_eq wrapTimer). simpl.
  rewrite decide_False by done. simpl. repeat split; [|done].
  rewrite Hp at 2. rewrite length_app. simpl. lia.
Qed.

(** X14: [createTag] and [deleteTag] leave the tags of the other types as
    [getTagsByType] lists them; a fulfilled [createTag] puts the tag last
    among the tags of its type. *)
Theorem other_types_untouched tag ty w :
  (ty ≠ type tag →
   (getTagsByType ty (createTag tag w).2).1 = (getTagsByType ty w).1 ∧
   (getTagsByType ty (deleteTag tag w).2).1 = (getTagsByType ty w).1) ∧
  ((createTag tag w).1 = Fulfilled tt →
   ∃ l, (getTagsByType (type tag) w).1 = Fulfilled l ∧
        (getTagsByType (type tag) (createTag tag w).2).1 =
          Fulfilled (l ++ [tag])).
Proof.
  rewrite !getTagsByType_eq, (createTag_eq wrapTimer),
    (deleteTag_eq wrapTimer). simpl. split.
  - intros Hty. split; f_equal.
    + case_decide; simpl; [done|]. rewrite filter_app.
      rewrite filter_cons_False by (simpl; congruence). apply app_nil_r.
    + rewrite list_filter_filter. apply list_filter_iff.
      intros row. split; [tauto|]. intros Hrow. split; [done|].
      intros ->. done.
  - case_decide; [done|]. intros _. eexists. split; [reflexivity|].
    simpl. rewrite filter_app. by rewrite filter_cons_True.
Qed.

End Store.

End TagStoreCompose.

(** ** On a table of two tags *)

Module TagStoreExamples.
Import TagStore TagStoreCalls TagStoreCompose.

Local Abbreviation T := timer_names.

Ltac decided := apply (bool_decide_unpack _); by vm_compute.

(** X4, on a tag that was not stored. *)
Lemma createTag_deleteTag_undo_witness :
  (createTag T green two_tags).1 = Fulfilled tt ∧
  (deleteTag T green (createTag T green two_tags).2).1 = Fulfilled tt ∧
  tags (deleteTag T green (createTag T green two_tags).2).2 = tags two_tags.
Proof.
  split; [reflexivity|].
  apply (createTag_deleteTag_undo T green two_tags). reflexivity.
Defined.

(** X8, on calls that create, import and delete. *)
Lemma unique_key_is_kept_witness :
  NoDup (tags two_tags) ∧
  NoDup
    (tags
       (performAll T
          [call_createTag green; call_createTag red;
           call_bulkImport [green; urgent; green]; call_deleteTag red]
          two_tags)).
Proof.
  assert (NoDup (tags two_tags)) as Hnd by decided.
  split; [exact Hnd|]. by apply (unique_key_is_kept T).
Defined.

(** X12, on one new tag. *)
Lemma bulkImport_fresh_appends_witness :
  [green] ≠ [] ∧
  NoDup [green] ∧
  (∀ tag, tag ∈ [green] → tag ∉ tags two_tags) ∧
  bulkImport [green] two_tags =
    (Fulfilled [green], with_tags (tags two_tags ++ [green]) two_tags).
Proof.
  assert (NoDup [green]) as Hnd by decided.
  assert (∀ tag, tag ∈ [green] → tag ∉ tags two_tags) as Hfresh.
  { intros tag ->%list_elem_of_singleton. decided. }
  assert ([green] ≠ []) as Hnew by done.
  split; [exact Hnew|]. split; [exact Hnd|]. split; [exact Hfresh|].
  exact (bulkImport_fresh_appends [green] two_tags Hnew Hnd Hfresh).
Defined.

(** X13, on the first of the two tags. *)
Lemma deleteTag_createTag_moves_last_witness :
  NoDup (tags two_tags) ∧ red ∈ tags two_tags ∧
  tags (createTag T red (deleteTag T red two_tags).2).2 = [urgent; red].
Proof.
  assert (NoDup (tags two_tags)) as Hnd by decided.
  assert (red ∈ tags two_tags) as Hin by decided.
  split; [exact Hnd|]. split; [exact Hin|].
  destruct (deleteTag_createTag_moves_last T red two_tags Hnd Hin)
    as (_ & _ & -> & _).
  reflexivity.
Defined.

(** X14, on the two types of the table. *)
Lemma other_types_untouched_witness :
  "priority" ≠ type green ∧
  (getTagsByType T "priority" (createTag T green two_tags).2).1 =
    (getTagsByType T "priority" two_tags).1 ∧
  (getTagsByType T "priority" (deleteTag T green two_tags).2).1 =
    (getTagsByType T "priority" two_tags).1.
Proof.
  assert ("priority" ≠ type green) as Hty by decided.
  split; [exact Hty|].
  destruct (other_types_untouched T green "priority" two_tags) as [Hother _].
  by apply Hother.
Defined.

(** C2, on a list that holds a tag twice and a stored tag. *)
Lemma bulkImport_idempotent_witness :
  [green; red; green] ≠ [] ∧
  (bulkImport [green; red; green] two_tags).1 = Fulfilled [green] ∧
  bulkImport [green; red; green]
    (bulkImport [green; red; green] two_tags).2 =
  (Fulfilled [], (bulkImport [green; red; green] two_tags).2).
Proof.
  assert ([green; red; green] ≠ []) as Hnew by done.
  split; [exact Hnew|]. split; [reflexivity|].
  destruct (TagStoreFacts.bulkImport_idempotent [green; red; green] two_tags)
    as [Hsome _].
  by destruct (Hsome Hnew).
Defined.

(** C2 as it stands fails: [bulkImport] of the empty list is rejected, the
    first time and the second. *)
Lemma bulkImport_empty_list_is_rejected :
  (bulkImport [] two_tags).1 = Rejected (KnexError "The query is empty") ∧
  (bulkImport [] (bulkImport [] two_tags).2).1 =
    Rejected (KnexError "The query is empty").
Proof. by vm_compute. Qed.

(** X10, on a new tag and a stored one. *)
Lemma bulkImport_is_createTag_each_witness :
  [green; red] ≠ [] ∧
  (bulkImport [green; red] two_tags).1 =
    Fulfilled (createEach T [green; red] two_tags).1.
Proof.
  assert ([green; red] ≠ []) as Hnew by done.
  split; [exact Hnew|].
  destruct (bulkImport_is_createTag_each T [green; red] two_tags)
    as [_ Hreport].
  by apply Hreport.
Defined.

(** X11, on a list that holds a tag twice. *)
Lemma bulkImport_stores_the_union_witness :
  [red; green; red] ≠ [] ∧
  (bulkImport [red; green; red] no_tags).1 = Fulfilled [red; green].
Proof.
  assert ([red; green; red] ≠ []) as Hnew by done.
  split; [exact Hnew|].
  destruct (bulkImport_stores_the_union [red; green; red] no_tags)
    as [_ Hreport].
  destruct (Hreport Hnew) as (reported & -> & -> & _). reflexivity.
Defined.

End TagStoreExamples.

(** * The requests of [feature.test.js], one after the other *)

Module AdminCompose.
Import AdminApi AdminFacts.

Implicit Types (s : Stores) (f g : FeatureToggle) (n p : string)
  (b : FeatureBody) (l : list FeatureToggle) (c : Call) (cs : list Call)
  (now : nat) (t : ITag).

Lemma getFeature_replace n f l :
  name f = n → is_Some (getFeature n l) → getFeature n (replace f l) = Some f.
Proof.
  intros <-. unfold getFeature, replace.
  induction l as [|g l IH]; simpl; [by intros [? ?]|].
  destruct (named (name f) g) eqn:Hg; simpl.
  - intros _. by rewrite (proj2 (named_spec (name f) f) eq_refl).
  - rewrite Hg. apply IH.
Qed.

Lemma replace_replace f g l :
  name f = name g → replace f (replace g l) = replace f l.
Proof.
  intros Hn. unfold replace. rewrite <- list_fmap_compose.
  apply list_fmap_ext. intros i h _. simpl. rewrite Hn.
  destruct (named (name g) h) eqn:Hh; [|by rewrite Hh].
  by rewrite (proj2 (named_spec (name g) g) eq_refl).
Qed.

Lemma replace_self f l :
  NoDup (name <$> l) → f ∈ l → replace f l = l.
Proof.
  unfold replace. induction l as [|g l IH]; [done|].
  rewrite !fmap_cons. intros [Hg Hnd]%NoDup_cons Hin. f_equal.
  - destruct (named (name f) g) eqn:Hn; [|done].
    apply named_spec in Hn. apply elem_of_cons in Hin as [->|Hin]; [done|].
    exfalso. apply Hg. rewrite Hn. by apply list_elem_of_fmap_2.
  - apply elem_of_cons in Hin as [->|Hin]; [|by apply IH].
    clear IH. induction l as [|h l IH]; [done|].
    rewrite fmap_cons in Hg. apply not_elem_of_cons in Hg as [Hne Hg].
    apply NoDup_cons in Hnd as [_ Hnd]. rewrite fmap_cons. f_equal.
    + destruct (named (name g) h) eqn:Hn; [|done].
      apply named_spec in Hn. congruence.
    + by apply IH.
Qed.

Section Requests.
Variable isUrlFriendly : string → bool.

Local Abbreviation handle := (handle isUrlFriendly).
Local Abbreviation call := (call isUrlFriendly).
Local Abbreviation run := (run isUrlFriendly).
Local Abbreviation consistent := (consistent isUrlFriendly).

(** The archive only grows. *)
Lemma call_archive c s : ∃ more, archive (call c s) = archive s ++ more.
Proof.
  destruct c as [now [q|b|n|n b|n|n to|n on|n t|n] | now n t]; simpl;
    try (by exists []; rewrite app_nil_r).
  - unfold createFeature. destruct (validateName _ _ _);
      [by exists []; rewrite app_nil_r|].
    destruct (validateDefinition b); by exists []; rewrite app_nil_r.
  - destruct (validateName _ _ _); by exists []; rewrite app_nil_r.
  - unfold updateFeature. destruct (getFeature n _);
      [|by exists []; rewrite app_nil_r].
    destruct (validateDefinition b); by exists []; rewrite app_nil_r.
  - unfold archiveFeature. destruct (getFeature n _) as [f|];
      [by exists [f] | by exists []; rewrite app_nil_r].
  - unfold toggle. destruct (getFeature n _); by exists []; rewrite app_nil_r.
  - unfold setStale. destruct (getFeature n _);
      by exists []; rewrite app_nil_r.
  - unfold tagFeature. destruct (negb _); [by exists []; rewrite app_nil_r|].
    destruct (knownFeature n s); [|by exists []; rewrite app_nil_r].
    simpl. case_bool_decide; by exists []; rewrite app_nil_r.
  - unfold untagFeature.
    destruct (knownFeature n s); by exists []; rewrite app_nil_r.
Qed.

Lemma run_archive cs s : ∃ more, archive (run cs s) = archive s ++ more.
Proof.
  revert s. induction cs as [|c cs IH]; intros s; simpl;
    [by exists []; rewrite app_nil_r|].
  destruct (IH (call c s)) as [more ->].
  destruct (call_archive c s) as [more' ->].
  exists (more' ++ more). by rewrite app_assoc.
Qed.

(** X17: as the test of the updated events has it, a [PUT] of a valid
    definition on an active toggle answers 200 and puts one
    feature-updated event in front of the log, whose [tags] are the tags
    attached to the toggle, those that the stores hold for its name; the
    definition is replaced and the tags stay attached, whatever the new
    definition holds. *)
Theorem update_event_carries_tags now n b f s :
  getFeature n (features s) = Some f → validateDefinition b = None →
  status (handle now (PUT_features n b) s).1 = 200 ∧
  getEvents (handle now (PUT_features n b) s).2 =
    {| type := feature_updated; data := toggleOf n b;
       tags := getTagsForFeature n s; timestamp := now |} :: getEvents s ∧
  (∀ t, t ∈ getTagsForFeature n s ↔ (n, t) ∈ featureTags s) ∧
  getTagsForFeature n (handle now (PUT_features n b) s).2 =
    getTagsForFeature n s ∧
  getFeature n (features (handle now (PUT_features n b) s).2) =
    Some (toggleOf n b).
Proof.
  intros Hf Hb. simpl. unfold updateFeature. rewrite Hf, Hb. simpl.
  split; [done|]. split; [done|]. split; [intros t; apply tagsOf_elem|].
  split; [done|]. by apply getFeature_replace; [|rewrite Hf].
Qed.

(** X19: as the tests of the tags have it, attaching a tag whose type
    matches the pattern to a known toggle answers 201, after which the
    tags of the toggle hold the tag and the tags of the other toggles are
    what they were; a tag whose type does not match the pattern is refused
    with 400 and the message ["type" must be URL friendly]. *)
Theorem tag_then_listed now now' n t s :
  (isUrlFriendly (TagStore.type t) = true → is_Some (knownFeature n s) →
   status (handle now (POST_features_tags n t) s).1 = 201 ∧
   (∃ attached,
      (handle now' (GET_features_tags n)
         (handle now (POST_features_tags n t) s).2).1 =
        {| status := 200; body := Tags 1 attached |} ∧
      t ∈ attached) ∧
   ∀ n', n' ≠ n →
     getTagsForFeature n' (handle now (POST_features_tags n t) s).2 =
     getTagsForFeature n' s) ∧
  (isUrlFriendly (TagStore.type t) = false →
   refused (handle now (POST_features_tags n t) s) 400
     (dquote +:+ "type" +:+ dquote +:+ " must be URL friendly") s).
Proof.
  split.
  - intros Hty [f Hf]. simpl. unfold tagFeature. rewrite Hty, Hf. simpl.
    split; [done|]. unfold getTagsForFeature.
    case_bool_decide as Hin; simpl.
    + split; [by eexists|done].
    + split.
      * eexists. split; [reflexivity|]. rewrite tagsOf_app, elem_of_app.
        right. simpl. rewrite bool_decide_eq_true_2 by done. left.
      * intros n' Hn'. rewrite tagsOf_app. simpl.
        rewrite bool_decide_eq_false_2 by done. apply app_nil_r.
  - intros Hty. simpl. unfold tagFeature. by rewrite Hty.
Qed.

(** X20: as the tests of the toggling have it, [toggle/on], [toggle/off]
    and [toggle] on an active toggle answer 200 with the toggle, enabled
    as asked ([toggle] alone flips it), and store it so; in stores that
    satisfy the data model, flipping twice gives the active toggles back
    as they were. *)
Theorem toggle_sets_enabled now n to f s :
  getFeature n (features s) = Some f →
  (∃ f',
     (handle now (POST_features_toggle n to) s).1 =
       {| status := 200; body := Feature f' |} ∧
     name f' = n ∧
     enabled f' = default (negb (enabled f)) to ∧
     getFeature n (features (handle now (POST_features_toggle n to) s).2) =
       Some f') ∧
  (consistent s →
   features
     (run [http now (POST_features_toggle n None);
           http now (POST_features_toggle n None)] s) = features s).
Proof.
  intros Hf. pose proof (getFeature_Some _ _ _ Hf) as [Hin Hn]. split.
  - simpl. unfold toggle. rewrite Hf. simpl. eexists.
    split; [reflexivity|]. split; [done|]. split; [done|].
    apply getFeature_replace; [done | by rewrite Hf].
  - intros [_ Hnd]. rewrite fmap_app in Hnd.
    apply NoDup_app in Hnd as [Hnd _].
    cbn [AdminApi.run AdminApi.call AdminApi.handle].
    unfold toggle at 2. rewrite Hf. cbn [respond snd].
    unfold toggle at 1. cbn [features with_features].
    rewrite (getFeature_replace n); [|done | by rewrite Hf]. simpl.
    rewrite replace_replace by done. rewrite negb_involutive.
    assert ({| name := name f; enabled := enabled f;
               strategies := strategies f; variants := variants f;
               stale := stale f; project := project f |} = f) as ->
      by by destruct f.
    by apply replace_self.
Qed.

(** X21: as the test of the reused archived name has it, and for good:
    once a toggle is archived in stores that satisfy the data model,
    whatever is called afterwards, it is no longer among the active
    toggles and its name is refused with 409 and the message [An archived
    toggle with that name already exists]. *)
Theorem archived_name_stays_blocked now now' n cs s :
  consistent s →
  status (handle now (DELETE_features n) s).1 = 200 →
  (n ∉ name <$> features (run cs (handle now (DELETE_features n) s).2)) ∧
  refused
    (handle now' (POST_features_validate n)
       (run cs (handle now (DELETE_features n) s).2))
    409 "An archived toggle with that name already exists"
    (run cs (handle now (DELETE_features n) s).2).
Proof.
  intros Hs Hok.
  pose proof (call_consistent isUrlFriendly (http now (DELETE_features n)) s Hs)
    as Hs1.
  assert (n ∈ name <$> archive (handle now (DELETE_features n) s).2) as Harc.
  { revert Hok. simpl. unfold archiveFeature.
    destruct (getFeature n (features s)) as [f|] eqn:Hf; simpl; [|done].
    intros _. apply getFeature_Some in Hf as [_ <-].
    rewrite fmap_app, elem_of_app. right. left. }
  simpl in Hs1.
  set (s1 := (handle now (DELETE_features n) s).2) in *.
  pose proof (run_consistent isUrlFriendly cs s1 Hs1) as Hs'.
  assert (hasFeature n (archive (run cs s1)) = true) as Harc'.
  { apply hasFeature_spec. destruct (run_archive cs s1) as [more ->].
    rewrite fmap_app, elem_of_app. by left. }
  pose proof (consistent_archived_not_active isUrlFriendly _ _ Hs' Harc')
    as Hact.
  split; [by apply hasFeature_false|].
  assert (isUrlFriendly n = true) as Hu.
  { apply (consistent_stored_name isUrlFriendly _ (run cs s1) Hs').
    rewrite fmap_app, elem_of_app. right. by apply hasFeature_spec. }
  simpl. by rewrite (validateName_archived isUrlFriendly).
Qed.

End Requests.
End AdminCompose.

(** ** On the stores of the tests *)

Module AdminExamples.
Import AdminApi Fixtures AdminFacts AdminCompose.

Local Abbreviation P := unreserved_only.

(** X17, on the tagged toggle of the test. *)
Lemma update_event_carries_tags_witness :
  getFeature "a_team.toggle" (features tagged)
    = Some (toggleOf "a_team.toggle" (definition "a_team.toggle")) ∧
  validateDefinition (definition "a_team.toggle") = None ∧
  (tags <$> getEvents
     (handle P 3 (PUT_features "a_team.toggle" (definition "a_team.toggle"))
        tagged).2) !! 0 = Some [simple_tag].
Proof.
  split; [reflexivity|]. split; [reflexivity|].
  destruct (update_event_carries_tags P 3 "a_team.toggle"
              (definition "a_team.toggle")
              (toggleOf "a_team.toggle" (definition "a_team.toggle")) tagged)
    as (_ & -> & _); reflexivity.
Defined.

(** X19, on the tag of the test. *)
Lemma tag_then_listed_witness :
  P (TagStore.type simple_tag) = true ∧
  is_Some (knownFeature "ts" active_ts) ∧
  status (handle P 2 (POST_features_tags "ts" simple_tag) active_ts).1 = 201.
Proof.
  assert (is_Some (knownFeature "ts" active_ts)) as Hknown by by eexists.
  split; [reflexivity|]. split; [exact Hknown|].
  destruct (tag_then_listed P 2 3 "ts" simple_tag active_ts) as [Hok _].
  by destruct (Hok eq_refl Hknown).
Defined.

(** X20, on the toggle [ts]. *)
Lemma toggle_sets_enabled_witness :
  getFeature "ts" (features active_ts)
    = Some (toggleOf "ts" (definition "ts")) ∧
  consistent P active_ts ∧
  features
    (run P [http 2 (POST_features_toggle "ts" None);
            http 2 (POST_features_toggle "ts" None)] active_ts)
    = features active_ts.
Proof.
  assert (consistent P active_ts) as Hs
    by (apply (bool_decide_unpack _); by vm_compute).
  split; [reflexivity|]. split; [exact Hs|].
  destruct (toggle_sets_enabled P 2 "ts" None
              (toggleOf "ts" (definition "ts")) active_ts eq_refl)
    as [_ Htwice].
  by apply Htwice.
Defined.

(** X21, on the toggle [ts], with a request to create it anew after it was
    archived. *)
Lemma archived_name_stays_blocked_witness :
  consistent P active_ts ∧
  status (handle P 2 (DELETE_features "ts") active_ts).1 = 200 ∧
  refused
    (handle P 4 (POST_features_validate "ts")
       (run P [http 3 (POST_features (definition "ts"))]
          (handle P 2 (DELETE_features "ts") active_ts).2))
    409 "An archived toggle with that name already exists"
    (run P [http 3 (POST_features (definition "ts"))]
       (handle P 2 (DELETE_features "ts") active_ts).2).
Proof.
  assert (consistent P active_ts) as Hs
    by (apply (bool_decide_unpack _); by vm_compute).
  split; [exact Hs|]. split; [reflexivity|].
  by apply (archived_name_stays_blocked P 2 4 "ts"
              [http 3 (POST_features (definition "ts"))] active_ts Hs).
Defined.

End AdminExamples.
